(** * yggcrawl: the traversal engine of the Yggdrasil crawler

    A shallow embedding of [dhtPing], [nodeInfo] and the crawl part of [main]
    as they are written in the two source files of the repository
    ([crawler.go] and the later version with the [results] struct, called
    [part_000] below), together with an interleaving semantics for the
    goroutines, their two mutexes and their two wait groups. *)

From Stdlib Require Import ZArith Lia Ascii String Strings.Byte.
From stdpp Require Import base option list gmap strings countable.

Local Open Scope Z_scope.

(** ** Integers, bytes and hex encoding *)

(** Go's [int], [int64] and [time.Duration] on a 64-bit platform: signed
    64-bit two's complement with wrap-around. *)
Definition wrap64 (z : Z) : Z := (z + 2 ^ 63) mod 2 ^ 64 - 2 ^ 63.

#[global] Instance byte_eq_dec : EqDecision byte := Byte.byte_eq_dec.

#[global] Instance byte_countable : Countable byte :=
  inj_countable Byte.to_N Byte.of_N Byte.of_to_N.

(** [crypto.BoxPubKey] is [[32]byte]. *)
Definition BoxPubKey : Type := list byte.

(** [hextable] of [encoding/hex]. *)
Definition hextable : list ascii :=
  ["0"; "1"; "2"; "3"; "4"; "5"; "6"; "7";
   "8"; "9"; "a"; "b"; "c"; "d"; "e"; "f"]%char.

Definition hexDigit (n : N) : ascii :=
  nth (N.to_nat n) hextable "0"%char.

(** [hex.EncodeToString]: [hextable[v>>4]], [hextable[v&0x0f]] per byte. *)
Fixpoint hexEncode (src : list byte) : string :=
  match src with
  | [] => EmptyString
  | v :: rest =>
      String (hexDigit (N.shiftr (Byte.to_N v) 4))
        (String (hexDigit (N.land (Byte.to_N v) 15)) (hexEncode rest))
  end.



(** ** The collaborator's types *)

(** Go's [error] interface; [nil] is [None]. *)
Definition error : Type := string.

(** One rumour of [yggdrasil.DHTRes.Infos]. *)
Record DHTEntry := {
  PublicKey : BoxPubKey;
  EntryCoords : list N;
}.

(** [yggdrasil.DHTRes], the fields the crawler reads. *)
Record DHTRes := {
  Coords : list N;
  Infos : list DHTEntry;
}.

(** The zero value of [var res yggdrasil.DHTRes]. *)
Definition zeroDHTRes : DHTRes := {| Coords := []; Infos := [] |}.

(** [yggdrasil.NodeInfoPayload] is [[]byte]. *)
Definition NodeInfoPayload : Type := list byte.

(** ** What differs between the two source files

    The key type of [dhtVisited], the [attempt] record and the way [dhtPing]
    fills it, and where the retry count comes from.  [JSONValue] stands for
    Go's [interface{}] as produced by [json.Unmarshal], which is a
    collaborator of both files. *)
Class Source := {
  attempt : Type;
  DhtKey : Type;
  DhtKey_eq_dec :: EqDecision DhtKey;
  DhtKey_countable :: Countable DhtKey;
  (** the map key [dhtPing] uses for [pubkey] *)
  dhtKey : BoxPubKey → DhtKey;
  (** the value a map miss yields *)
  attemptZero : attempt;
  attemptFound : attempt → bool;
  (** the literal [info := attempt{...}] of [dhtPing], from [pubkey],
      [coords], [res] and [err == nil] *)
  newAttempt : BoxPubKey → list N → DHTRes → bool → attempt;
  retryCount : Z;
  JSONValue : Type;
  unmarshal : NodeInfoPayload → error + JSONValue;
  dhtKey_inj : Inj (=) (=) dhtKey;
  attemptZero_found : attemptFound attemptZero = false;
  newAttempt_found : ∀ pubkey coords res ok,
    attemptFound (newAttempt pubkey coords res ok) = ok;
}.

(** *** [crawler.go] *)
Module CrawlerGo.

Record attempt := {
  coords : list N;
  found : bool;
}.

Definition retryCount : Z := 5.

(** [info := attempt{coords: res.Coords, found: err == nil}] *)
Definition newAttempt (pubkey : BoxPubKey) (coords0 : list N)
    (res : DHTRes) (ok : bool) : attempt :=
  {| coords := Coords res; found := ok |}.

End CrawlerGo.

Definition crawler_go (J : Type) (unm : NodeInfoPayload → error + J) : Source :=
  {| attempt := CrawlerGo.attempt;
     DhtKey := BoxPubKey;
     dhtKey := λ pubkey, pubkey;
     attemptZero := {| CrawlerGo.coords := []; CrawlerGo.found := false |};
     attemptFound := CrawlerGo.found;
     newAttempt := CrawlerGo.newAttempt;
     retryCount := CrawlerGo.retryCount;
     JSONValue := J;
     unmarshal := unm;
     dhtKey_inj := λ x y H, H;
     attemptZero_found := eq_refl;
     newAttempt_found := λ _ _ _ _, eq_refl |}.

(** *** The later file ([part_000]) *)



Module Part000.

(** The pure derivations of the collaborator, used for the exported fields
    only: [crypto.GetNodeID(&pubkey).String()], and the [String()] of the
    address and of the /64 subnet of that node ID. *)
Record Derive := {
  nodeIDString : BoxPubKey → string;
  addrString : BoxPubKey → string;
  subnetString : BoxPubKey → string;
}.

Record attempt := {
  NodeID : string;
  IPv6Addr : string;
  IPv6Subnet : string;
  Coords : list N;
  Found : bool;
}.

Definition newAttempt (d : Derive) (pubkey : BoxPubKey) (coords : list N)
    (res : DHTRes) (ok : bool) : attempt :=
  {| NodeID := nodeIDString d pubkey;
     IPv6Addr := addrString d pubkey;
     IPv6Subnet := subnetString d pubkey;
     Coords := coords;
     Found := ok |}.

End Part000.


(** ** Goroutine code

    The two phases of the crawl: each has a wait group, a reader-writer mutex
    and a map ([dhtWaitGroup], [dhtMutex], [dhtVisited]; [nodeInfoWaitGroup],
    [nodeInfoMutex], [nodeInfoVisited]). *)
Inductive Phase := Dht | NodeInfo.

#[global] Instance Phase_eq_dec : EqDecision Phase.
Proof. solve_decision. Defined.

(** What a [go] statement starts. *)
Inductive task :=
| GoDhtPing (pubkey : BoxPubKey) (coords : list N)
| GoNodeInfo (pubkey : BoxPubKey) (coords : list N).

Definition taskPhase (t : task) : Phase :=
  match t with
  | GoDhtPing _ _ => Dht
  | GoNodeInfo _ _ => NodeInfo
  end.

Section Code.
Context {Src : Source}.

(** The body of a goroutine: one constructor per operation on the shared
    [node], on the scheduler or on a collaborator, with the rest of the body
    as continuation. *)
Inductive prog :=
| Return
| RLock (mu : Phase) (k : prog)
| RUnlock (mu : Phase) (k : prog)
| Lock (mu : Phase) (k : prog)
| Unlock (mu : Phase) (k : prog)
| DhtLoad (key : DhtKey) (k : attempt → prog)        (* n.dhtVisited[key] *)
| DhtStore (key : DhtKey) (info : attempt) (k : prog) (* n.dhtVisited[key] = info *)
| NodeInfoHas (key : string) (k : bool → prog)        (* _, ok := n.nodeInfoVisited[key] *)
| NodeInfoStore (key : string) (j : JSONValue) (k : prog)
| WgAdd (wg : Phase) (k : prog)                       (* Add(1) *)
| WgDone (wg : Phase) (k : prog)
| WgWait (wg : Phase) (k : prog)
| Go (t : task) (k : prog)
| RandIntn (n : Z) (k : Z → prog)                     (* rand.Intn(n) *)
| Sleep (d : Z) (k : prog)                            (* time.Sleep, nanoseconds *)
| CoreDHTPing (pubkey : BoxPubKey) (coords : list N)
    (k : DHTRes * option error → prog)
| CoreGetNodeInfo (pubkey : BoxPubKey) (coords : list N)
    (k : NodeInfoPayload * option error → prog)
| Println (e : error) (k : prog).

(** [time.Millisecond * time.Duration(r * (1 << idx))], in nanoseconds. *)
Definition backoff (r idx : Z) : Z :=
  wrap64 (1000000 * wrap64 (r * wrap64 (Z.shiftl 1 idx))).

(** [for idx := 0; idx < retryCount; idx++ { time.Sleep(...); res, err =
    call(); if err == nil { break } }], with [fuel] the number of iterations
    that remain and [k] the code after the loop. *)
Fixpoint retryLoop {A : Type} (call : (A * option error → prog) → prog)
    (fuel : nat) (idx : Z) (res : A) (err : option error)
    (k : A → option error → prog) : prog :=
  match fuel with
  | O => k res err
  | S fuel' =>
      RandIntn 1000 (λ r,
      Sleep (backoff r idx) (
      call (λ reply,
        match reply.2 with
        | None => k reply.1 reply.2
        | Some _ => retryLoop call fuel' (idx + 1) reply.1 reply.2 k
        end)))
  end.

(** [for _, info := range res.Infos { n.dhtWaitGroup.Add(1); go
    n.dhtPing(info.PublicKey, info.Coords) }] *)
Fixpoint fanOut (infos : list DHTEntry) (k : prog) : prog :=
  match infos with
  | [] => k
  | info :: rest =>
      WgAdd Dht (Go (GoDhtPing (PublicKey info) (EntryCoords info)) (fanOut rest k))
  end.

(** [dhtPing] from [n.dhtMutex.Lock()] on.  The two deferred calls run at
    each return, last deferred first: [n.dhtMutex.Unlock()], then
    [n.dhtWaitGroup.Done()]. *)
Definition dhtPingRecord (pubkey : BoxPubKey) (coords : list N)
    (res : DHTRes) (err : option error) : prog :=
  let key := dhtKey pubkey in
  let info := newAttempt pubkey coords res (bool_decide (err = None)) in
  Lock Dht (
  DhtLoad key (λ oldInfo,
  (if attemptFound info || negb (attemptFound oldInfo)
   then DhtStore key info else λ k, k) (
  if negb (attemptFound oldInfo) && attemptFound info
  then WgAdd NodeInfo (Go (GoNodeInfo pubkey coords) (
       fanOut (Infos res) (
       Unlock Dht (WgDone Dht Return))))
  else Unlock Dht (WgDone Dht Return)))).

Definition dhtPing (pubkey : BoxPubKey) (coords : list N) : prog :=
  let key := dhtKey pubkey in
  RLock Dht (
  DhtLoad key (λ info,
  if attemptFound info
  then RUnlock Dht (WgDone Dht Return)
  else RUnlock Dht (
       retryLoop (CoreDHTPing pubkey coords) (Z.to_nat retryCount) 0
         zeroDHTRes None (dhtPingRecord pubkey coords)))).

(** [nodeInfo] after its retry loop. *)
Definition nodeInfoRecord (pubkey : BoxPubKey)
    (res : NodeInfoPayload) (err : option error) : prog :=
  let key := hexEncode pubkey in
  match err with
  | Some _ => WgDone NodeInfo Return
  | None =>
      Lock NodeInfo (
      match unmarshal res with
      | inl e => Println e (Unlock NodeInfo (WgDone NodeInfo Return))
      | inr j => NodeInfoStore key j (Unlock NodeInfo (WgDone NodeInfo Return))
      end)
  end.

Definition nodeInfo (pubkey : BoxPubKey) (coords : list N) : prog :=
  let key := hexEncode pubkey in
  RLock NodeInfo (
  NodeInfoHas key (λ ok,
  if ok
  then RUnlock NodeInfo (WgDone NodeInfo Return)
  else RUnlock NodeInfo (
       retryLoop (CoreGetNodeInfo pubkey coords) (Z.to_nat retryCount) 0
         [] None (nodeInfoRecord pubkey)))).

Definition body (t : task) : prog :=
  match t with
  | GoDhtPing pubkey coords => dhtPing pubkey coords
  | GoNodeInfo pubkey coords => nodeInfo pubkey coords
  end.

(** [main] from [n.dhtWaitGroup.Add(1)] to [n.nodeInfoMutex.Lock()], for the
    local key and coordinates the collaborator reports. *)
Definition mainCrawl (pubkey : BoxPubKey) (coords : list N) : prog :=
  WgAdd Dht (
  Go (GoDhtPing pubkey coords) (
  WgWait Dht (
  WgWait NodeInfo (
  Lock Dht (
  Lock NodeInfo Return))))).

End Code.

(** ** The shared [node] and one operation on it *)

(** [sync.RWMutex]: held by one writer or by a number of readers.  That a
    waiting writer holds back new readers is a matter of fairness and is not
    modelled. *)
Record RWMutex := {
  writer : bool;
  readers : nat;
}.

Section Machine.
Context {Src : Source}.

(** The fields of [node] that the goroutines share.  A [sync.WaitGroup] is
    its counter. *)
Record node := {
  dhtVisited : gmap DhtKey attempt;
  nodeInfoVisited : gmap string JSONValue;
  dhtMutex : RWMutex;
  nodeInfoMutex : RWMutex;
  dhtWaitGroup : Z;
  nodeInfoWaitGroup : Z;
}.

Definition mutex (n : node) (mu : Phase) : RWMutex :=
  match mu with Dht => dhtMutex n | NodeInfo => nodeInfoMutex n end.

Definition setMutex (mu : Phase) (m : RWMutex) (n : node) : node :=
  match mu with
  | Dht =>
      {| dhtVisited := dhtVisited n; nodeInfoVisited := nodeInfoVisited n;
         dhtMutex := m; nodeInfoMutex := nodeInfoMutex n;
         dhtWaitGroup := dhtWaitGroup n; nodeInfoWaitGroup := nodeInfoWaitGroup n |}
  | NodeInfo =>
      {| dhtVisited := dhtVisited n; nodeInfoVisited := nodeInfoVisited n;
         dhtMutex := dhtMutex n; nodeInfoMutex := m;
         dhtWaitGroup := dhtWaitGroup n; nodeInfoWaitGroup := nodeInfoWaitGroup n |}
  end.

Definition waitGroup (n : node) (wg : Phase) : Z :=
  match wg with Dht => dhtWaitGroup n | NodeInfo => nodeInfoWaitGroup n end.

Definition setWaitGroup (wg : Phase) (c : Z) (n : node) : node :=
  match wg with
  | Dht =>
      {| dhtVisited := dhtVisited n; nodeInfoVisited := nodeInfoVisited n;
         dhtMutex := dhtMutex n; nodeInfoMutex := nodeInfoMutex n;
         dhtWaitGroup := c; nodeInfoWaitGroup := nodeInfoWaitGroup n |}
  | NodeInfo =>
      {| dhtVisited := dhtVisited n; nodeInfoVisited := nodeInfoVisited n;
         dhtMutex := dhtMutex n; nodeInfoMutex := nodeInfoMutex n;
         dhtWaitGroup := dhtWaitGroup n; nodeInfoWaitGroup := c |}
  end.

Definition setDhtVisited (m : gmap DhtKey attempt) (n : node) : node :=
  {| dhtVisited := m; nodeInfoVisited := nodeInfoVisited n;
     dhtMutex := dhtMutex n; nodeInfoMutex := nodeInfoMutex n;
     dhtWaitGroup := dhtWaitGroup n; nodeInfoWaitGroup := nodeInfoWaitGroup n |}.

Definition setNodeInfoVisited (m : gmap string JSONValue) (n : node) : node :=
  {| dhtVisited := dhtVisited n; nodeInfoVisited := m;
     dhtMutex := dhtMutex n; nodeInfoMutex := nodeInfoMutex n;
     dhtWaitGroup := dhtWaitGroup n; nodeInfoWaitGroup := nodeInfoWaitGroup n |}.

(** [n.dhtVisited[key]]: the stored record, or the zero value. *)
Definition dhtLookup (n : node) (key : DhtKey) : attempt :=
  default attemptZero (dhtVisited n !! key).

(** [make(map...)] twice, unlocked mutexes, zero counters. *)
Definition newNode : node :=
  {| dhtVisited := ∅; nodeInfoVisited := ∅;
     dhtMutex := {| writer := false; readers := 0 |};
     nodeInfoMutex := {| writer := false; readers := 0 |};
     dhtWaitGroup := 0; nodeInfoWaitGroup := 0 |}.

(** What one operation did, for traces. *)
Inductive effect :=
| EvRLock (mu : Phase)
| EvRUnlock (mu : Phase)
| EvLock (mu : Phase)
| EvUnlock (mu : Phase)
| EvDhtLoad (key : DhtKey)
| EvDhtStore (key : DhtKey) (info : attempt)
| EvNodeInfoHas (key : string)
| EvNodeInfoStore (key : string) (j : JSONValue)
| EvAdd (wg : Phase)
| EvDone (wg : Phase)
| EvWait (wg : Phase)
| EvGo (t : task)
| EvRand (r : Z)
| EvSleep (d : Z)
| EvDHTPing (pubkey : BoxPubKey) (coords : list N)
| EvGetNodeInfo (pubkey : BoxPubKey) (coords : list N)
| EvPrintln (e : error).

(** What the environment hands to the operation, if it takes anything. *)
Inductive input :=
| NoInput
| RandOut (r : Z)
| DHTPingOut (res : DHTRes) (err : option error)
| GetNodeInfoOut (res : NodeInfoPayload) (err : option error).

(** The change an operation makes to the node. *)
Definition perform (e : effect) (n : node) : node :=
  match e with
  | EvRLock mu =>
      setMutex mu {| writer := writer (mutex n mu);
                     readers := S (readers (mutex n mu)) |} n
  | EvRUnlock mu =>
      setMutex mu {| writer := writer (mutex n mu);
                     readers := pred (readers (mutex n mu)) |} n
  | EvLock mu =>
      setMutex mu {| writer := true; readers := readers (mutex n mu) |} n
  | EvUnlock mu =>
      setMutex mu {| writer := false; readers := readers (mutex n mu) |} n
  | EvDhtStore key info => setDhtVisited (<[key := info]> (dhtVisited n)) n
  | EvNodeInfoStore key j =>
      setNodeInfoVisited (<[key := j]> (nodeInfoVisited n)) n
  | EvAdd wg => setWaitGroup wg (waitGroup n wg + 1) n
  | EvDone wg => setWaitGroup wg (waitGroup n wg - 1) n
  | _ => n
  end.

(** Whether the operation can go ahead: [RLock] waits for the writer, [Lock]
    for the writer and the readers, [Wait] for a zero counter; an unlock of
    an unlocked mutex and a [Done] on a zero counter panic. *)
Definition enabled (n : node) (e : effect) : bool :=
  match e with
  | EvRLock mu => negb (writer (mutex n mu))
  | EvRUnlock mu => bool_decide (readers (mutex n mu) ≠ 0%nat)
  | EvLock mu =>
      negb (writer (mutex n mu)) && bool_decide (readers (mutex n mu) = 0%nat)
  | EvUnlock mu => writer (mutex n mu)
  | EvDone wg => bool_decide (1 ≤ waitGroup n wg)
  | EvWait wg => bool_decide (waitGroup n wg = 0)
  | _ => true
  end.

(** The next operation of a body and the rest of the body, given what the
    operation reads from the node or is handed by the environment. *)
Definition next (n : node) (p : prog) (inp : input) : option (prog * effect) :=
  match p with
  | Return => None
  | RLock mu k => Some (k, EvRLock mu)
  | RUnlock mu k => Some (k, EvRUnlock mu)
  | Lock mu k => Some (k, EvLock mu)
  | Unlock mu k => Some (k, EvUnlock mu)
  | DhtLoad key k => Some (k (dhtLookup n key), EvDhtLoad key)
  | DhtStore key info k => Some (k, EvDhtStore key info)
  | NodeInfoHas key k =>
      Some (k (bool_decide (is_Some (nodeInfoVisited n !! key))),
            EvNodeInfoHas key)
  | NodeInfoStore key j k => Some (k, EvNodeInfoStore key j)
  | WgAdd wg k => Some (k, EvAdd wg)
  | WgDone wg k => Some (k, EvDone wg)
  | WgWait wg k => Some (k, EvWait wg)
  | Go t k => Some (k, EvGo t)
  | RandIntn bound k =>
      match inp with
      | RandOut r =>
          if bool_decide (0 ≤ r < bound) then Some (k r, EvRand r) else None
      | _ => None
      end
  | Sleep d k => Some (k, EvSleep d)
  | CoreDHTPing pubkey coords k =>
      match inp with
      | DHTPingOut res err => Some (k (res, err), EvDHTPing pubkey coords)
      | _ => None
      end
  | CoreGetNodeInfo pubkey coords k =>
      match inp with
      | GetNodeInfoOut res err => Some (k (res, err), EvGetNodeInfo pubkey coords)
      | _ => None
      end
  | Println e k => Some (k, EvPrintln e)
  end.

(** One operation of a goroutine on the shared node: the node after it, the
    rest of the body and the effect; [None] when the goroutine is finished,
    blocked, would panic or the input does not fit. *)
Definition exec1 (n : node) (p : prog) (inp : input)
    : option (node * prog * effect) :=
  '(k, e) ← next n p inp;
  if enabled n e then Some (perform e n, k, e) else None.

(** ** One call on its own

    The answers of the collaborators to a call that runs without
    interference: the random number drawn before remote call [i] and the
    reply to remote call [i]. *)
Record oracle := {
  randOut : nat → Z;
  dhtPingOut : nat → DHTRes * option error;
  getNodeInfoOut : nat → NodeInfoPayload * option error;
}.

(** The body [p] run to its end from node [n], [calls] remote calls having
    been made: the final node and the operations in order. *)
Fixpoint run (orc : oracle) (p : prog) (calls : nat) (n : node)
    : node * list effect :=
  let go e k calls :=
    let r := run orc k calls (perform e n) in (r.1, e :: r.2) in
  match p with
  | Return => (n, [])
  | RLock mu k => go (EvRLock mu) k calls
  | RUnlock mu k => go (EvRUnlock mu) k calls
  | Lock mu k => go (EvLock mu) k calls
  | Unlock mu k => go (EvUnlock mu) k calls
  | DhtLoad key k => go (EvDhtLoad key) (k (dhtLookup n key)) calls
  | DhtStore key info k => go (EvDhtStore key info) k calls
  | NodeInfoHas key k =>
      go (EvNodeInfoHas key)
         (k (bool_decide (is_Some (nodeInfoVisited n !! key)))) calls
  | NodeInfoStore key j k => go (EvNodeInfoStore key j) k calls
  | WgAdd wg k => go (EvAdd wg) k calls
  | WgDone wg k => go (EvDone wg) k calls
  | WgWait wg k => go (EvWait wg) k calls
  | Go t k => go (EvGo t) k calls
  | RandIntn bound k => go (EvRand (randOut orc calls)) (k (randOut orc calls)) calls
  | Sleep d k => go (EvSleep d) k calls
  | CoreDHTPing pubkey coords k =>
      go (EvDHTPing pubkey coords) (k (dhtPingOut orc calls)) (S calls)
  | CoreGetNodeInfo pubkey coords k =>
      go (EvGetNodeInfo pubkey coords) (k (getNodeInfoOut orc calls)) (S calls)
  | Println e k => go (EvPrintln e) k calls
  end.

(** ** Interleaving semantics *)

(** A goroutine: what it was started for ([None] for [main]) and what is
    left of its body. *)
Record goroutine := {
  running : option task;
  code : prog;
}.

Record state := {
  shared : node;
  goroutines : list goroutine;
  history : list (nat * effect);
}.

(** Goroutine [i] performs its next operation; a [go] statement appends the
    new goroutine. *)
Definition step (s : state) (i : nat) (inp : input) : option state :=
  g ← goroutines s !! i;
  '(n', k, e) ← exec1 (shared s) (code g) inp;
  let gs := <[i := {| running := running g; code := k |}]> (goroutines s) in
  Some {| shared := n';
          goroutines :=
            match e with
            | EvGo t => gs ++ [{| running := Some t; code := body t |}]
            | _ => gs
            end;
          history := history s ++ [(i, e)] |}.

(** The state in which [main] is about to start the crawl. *)
Definition init (pubkey : BoxPubKey) (coords : list N) : state :=
  {| shared := newNode;
     goroutines := [{| running := None; code := mainCrawl pubkey coords |}];
     history := [] |}.

Fixpoint steps (s : state) (sched : list (nat * input)) : option state :=
  match sched with
  | [] => Some s
  | (i, inp) :: sched' => s' ← step s i inp; steps s' sched'
  end.

(** The states of the runs of the crawl. *)
Inductive reachable (pubkey : BoxPubKey) (coords : list N) : state → Prop :=
| reachable_init : reachable pubkey coords (init pubkey coords)
| reachable_step s i inp s' :
    reachable pubkey coords s → step s i inp = Some s' →
    reachable pubkey coords s'.




(** What the oracle hands to the next operation of [p], and the number of
    remote calls made once it is done. *)
Definition answer (orc : oracle) (calls : nat) (p : prog) : input :=
  match p with
  | RandIntn _ _ => RandOut (randOut orc calls)
  | CoreDHTPing _ _ _ =>
      DHTPingOut (dhtPingOut orc calls).1 (dhtPingOut orc calls).2
  | CoreGetNodeInfo _ _ _ =>
      GetNodeInfoOut (getNodeInfoOut orc calls).1 (getNodeInfoOut orc calls).2
  | _ => NoInput
  end.

Definition callsAfter (calls : nat) (p : prog) : nat :=
  match p with
  | CoreDHTPing _ _ _ | CoreGetNodeInfo _ _ _ => S calls
  | _ => calls
  end.

(** The operations of goroutine [i] in a history, in order. *)
Definition ownEffects (i : nat) (h : list (nat * effect)) : list effect :=
  omap (λ ie, if decide (ie.1 = i) then Some ie.2 else None) h.

(** What is left of [dhtPing] after [m] operations when the first check
    finds the record found. *)
Definition dedupFrom (pubkey : BoxPubKey) (coords : list N) (m : nat) : prog :=
  match m with
  | 0%nat => dhtPing pubkey coords
  | 1%nat => match dhtPing pubkey coords with RLock _ k => k | _ => Return end
  | 2%nat => RUnlock Dht (WgDone Dht Return)
  | 3%nat => WgDone Dht Return
  | _ => Return
  end.

(** The operations of [dhtPing] on that path. *)
Definition dedupTrace (pubkey : BoxPubKey) : list effect :=
  [EvRLock Dht; EvDhtLoad (dhtKey pubkey); EvRUnlock Dht; EvDone Dht].

(** A trace put in front of the outcome of the rest. *)
Definition prepend (evs : list effect) (r : node * list effect)
    : node * list effect :=
  (r.1, evs ++ r.2).

(** The tasks a trace starts, in order. *)
Definition started (tr : list effect) : list task :=
  omap (λ e, match e with EvGo t => Some t | _ => None end) tr.

(** The records a trace writes into [dhtVisited], in order. *)
Definition dhtStores (tr : list effect) : list (DhtKey * attempt) :=
  omap (λ e, match e with EvDhtStore key info => Some (key, info) | _ => None end)
       tr.

(** The values a trace writes into [nodeInfoVisited], in order. *)
Definition nodeInfoStores (tr : list effect) : list (string * JSONValue) :=
  omap (λ e, match e with EvNodeInfoStore key j => Some (key, j) | _ => None end)
       tr.

(** What a trace prints. *)
Definition printed (tr : list effect) : list error :=
  omap (λ e, match e with EvPrintln e => Some e | _ => None end) tr.

(** The number of remote calls in a trace. *)
Definition probes (tr : list effect) : nat :=
  sum_list_with
    (λ e, match e with
          | EvDHTPing _ _ | EvGetNodeInfo _ _ => 1%nat
          | _ => 0%nat
          end) tr.


(** The operations of attempt [i] of a retry loop whose remote call shows
    as [ev]: draw, sleep, call. *)
Definition attemptEvents (orc : oracle) (ev : effect) (i : nat) : list effect :=
  [EvRand (randOut orc i); EvSleep (backoff (randOut orc i) (Z.of_nat i)); ev].

End Machine.

(** ** The end of [main]: counts, results document, console summary *)

Section Count.
Context {K A : Type} `{Countable K}.

(** [found := 0; for _, attempt := range n.dhtVisited { if attempt.Found {
    found++ } }], for the [found] field of the file's [attempt]. *)
Definition countFound (isFound : A → bool) (visited : gmap K A) : Z :=
  map_fold (λ _ attempt found,
              if isFound attempt then wrap64 (found + 1) else found)
           0 visited.

(** The entries with [found = true]. *)
Definition foundEntries (isFound : A → bool) (visited : gmap K A) : gmap K A :=
  filter (λ kv, isFound kv.2 = true) visited.

End Count.

(** An operand of [fmt.Println]. *)
Inductive operand :=
| PInt (z : Z)
| PStr (s : string)
| PErr (e : error)
| PDuration (d : Z).

(** What [json.Marshal] and [ioutil.WriteFile] did. *)
Inductive writeOutcome :=
| Written
| WriteFailed (e : error)
| MarshalFailed (e : error).

(** The readings of the clock at the end of [main]: [time.Since(starttime)]
    when it is printed, [time.Now().UTC().Unix()], and
    [time.Since(starttime)] when it is stored (in nanoseconds; the file
    holds its [Seconds()]). *)
Record clock := {
  sincePrinted : Z;
  nowUnix : Z;
  sinceStored : Z;
}.

Module CrawlerGoMain.
Section WithJSON.
Context {J : Type}.

Record Meta := {
  GeneratedAtUTC : Z;
  NodesSuccessful : Z;
  NodesFailed : Z;
}.

(** The struct [n.nodeInfoVisited], marshalled into [nodeinfo.json]. *)
Record nodeInfoVisited := {
  meta : Meta;
  NodeInfo : gmap string J;
}.

(** [main] after the two [Lock]s: the document and the console lines. *)
Definition finish (c : clock) (w : writeOutcome)
    (dhtVisited : gmap BoxPubKey CrawlerGo.attempt)
    (nodeInfo : gmap string J) : nodeInfoVisited * list (list operand) :=
  let attempted := Z.of_nat (size dhtVisited) in
  let found := countFound CrawlerGo.found dhtVisited in
  let m :=
    {| GeneratedAtUTC := nowUnix c;
       NodesSuccessful := Z.of_nat (size nodeInfo);
       NodesFailed := wrap64 (found - Z.of_nat (size nodeInfo)) |} in
  ({| meta := m; NodeInfo := nodeInfo |},
   [ [];
     [PStr "The crawl took"; PDuration (sincePrinted c)] ] ++
   match w with
   | WriteFailed e => [ [PStr "Failed to write nodeinfo.json:"; PErr e] ]
   | _ => []
   end ++
   [ [PInt attempted; PStr "nodes were processed"];
     [PInt found; PStr "nodes were found"];
     [PInt (wrap64 (attempted - found)); PStr "nodes were not found"];
     [];
     [PInt (NodesSuccessful m); PStr "nodes responded with nodeinfo"];
     [PInt (NodesFailed m); PStr "nodes did not respond with nodeinfo"] ]).

End WithJSON.
End CrawlerGoMain.

Module Part000Main.
Section WithJSON.
Context {J : Type}.

Record Meta := {
  GeneratedAtUTC : Z;
  TimeTaken : Z;
  NodesAttempted : Z;
  NodesSuccessful : Z;
  NodesFailed : Z;
  NodeInfoSuccessful : Z;
  NodeInfoFailed : Z;
}.

(** [results], marshalled into the file named by [-file]. *)
Record results := {
  meta : Meta;
  Topology : gmap string Part000.attempt;
  NodeInfo : gmap string J;
}.

(** [main] after the two [Lock]s: the document and the console lines. *)
Definition finish (filename : string) (c : clock) (w : writeOutcome)
    (dhtVisited : gmap string Part000.attempt)
    (nodeInfoVisited : gmap string J) : results * list (list operand) :=
  let attempted := Z.of_nat (size dhtVisited) in
  let found := countFound Part000.Found dhtVisited in
  let m :=
    {| GeneratedAtUTC := nowUnix c;
       TimeTaken := sinceStored c;
       NodeInfoSuccessful := Z.of_nat (size nodeInfoVisited);
       NodeInfoFailed := wrap64 (found - Z.of_nat (size nodeInfoVisited));
       NodesAttempted := attempted;
       NodesSuccessful := found;
       NodesFailed := wrap64 (attempted - found) |} in
  ({| meta := m; Topology := dhtVisited; NodeInfo := nodeInfoVisited |},
   [ [];
     [PStr "The crawl took"; PDuration (sincePrinted c)] ] ++
   match w with
   | Written => [ [PStr "Results written to"; PStr filename] ]
   | WriteFailed e => [ [PStr "Failed to write"; PStr filename; PErr e] ]
   | MarshalFailed e => [ [PStr "Failed to marshal results:"; PErr e] ]
   end ++
   [ [];
     [PInt (NodesAttempted m); PStr "nodes were processed"];
     [PInt (NodesSuccessful m); PStr "nodes were found"];
     [PInt (NodesFailed m); PStr "nodes were not found"];
     [];
     [PInt (NodesSuccessful m); PStr "nodes responded with nodeinfo"];
     [PInt (NodesFailed m); PStr "nodes did not respond with nodeinfo"] ]).

End WithJSON.
End Part000Main.

(** ** Concrete collaborators and runs, for examples *)

Module Example.

(** A stand-in for [json.Unmarshal]: the empty payload does not parse, any
    other payload parses to itself. *)
Definition unmarshal (payload : NodeInfoPayload) : error + NodeInfoPayload :=
  match payload with
  | [] => inl "unexpected end of JSON input"
  | _ => inr payload
  end.


Definition crawler : Source := crawler_go NodeInfoPayload unmarshal.


Definition seed : BoxPubKey := [x01].
Definition peer : BoxPubKey := [x02].

(** Every probe times out, every draw is 7. *)
Definition deaf : oracle :=
  {| randOut := λ _, 7;
     dhtPingOut := λ _, (zeroDHTRes, Some "DHT ping timeout");
     getNodeInfoOut := λ _, ([], Some "getNodeInfo timeout") |}.

(** Every probe is answered at once: one rumour, a payload that parses. *)
Definition prompt : oracle :=
  {| randOut := λ _, 7;
     dhtPingOut := λ _,
       ({| Coords := [2%N];
           Infos := [{| PublicKey := peer; EntryCoords := [1%N; 3%N] |}] |},
        None);
     getNodeInfoOut := λ _, ([x7b; x7d], None) |}.

(** Every metadata request is answered with a payload that does not
    parse. *)
Definition garbled : oracle :=
  {| randOut := λ _, 7;
     dhtPingOut := λ _, (zeroDHTRes, None);
     getNodeInfoOut := λ _, ([], None) |}.

(** A run in which the probe of the seed succeeds at once with no rumour:
    [main] starts [dhtPing], which records the seed and starts [nodeInfo]. *)
Definition seedFound : list (nat * input) :=
  [(0, NoInput); (0, NoInput);
   (1, NoInput); (1, NoInput); (1, NoInput);
   (1, RandOut 5); (1, NoInput);
   (1, DHTPingOut {| Coords := [3%N]; Infos := [] |} None);
   (1, NoInput); (1, NoInput); (1, NoInput); (1, NoInput); (1, NoInput)]%nat.

(** The rest of that run: [dhtPing] returns, [nodeInfo] fetches and stores,
    [main] passes both waits and takes both locks. *)
Definition seedDone : list (nat * input) :=
  [(1, NoInput); (1, NoInput); (0, NoInput);
   (2, NoInput); (2, NoInput); (2, NoInput);
   (2, RandOut 9); (2, NoInput);
   (2, GetNodeInfoOut [x7b; x7d] None);
   (2, NoInput); (2, NoInput); (2, NoInput); (2, NoInput);
   (0, NoInput); (0, NoInput); (0, NoInput)]%nat.

End Example.

(** * Properties *)

(** ** Arithmetic *)

Lemma wrap64_small (z : Z) : - 2 ^ 63 ≤ z < 2 ^ 63 → wrap64 z = z.
Proof. intros Hz. unfold wrap64. rewrite Z.mod_small; lia. Qed.

Lemma countFound_size {K A : Type} `{Countable K} (isFound : A → bool)
    (visited : gmap K A) :
  Z.of_nat (size visited) < 2 ^ 63 →
  countFound isFound visited = Z.of_nat (size (foundEntries isFound visited)).
Proof.
  unfold countFound, foundEntries.
  apply (map_fold_weak_ind
    (λ r m, Z.of_nat (size m) < 2 ^ 63 →
            r = Z.of_nat (size (filter (λ kv : K * A, isFound kv.2 = true) m)))).
  - intros _. by rewrite map_filter_empty, map_size_empty.
  - intros i x m r Hi IH Hsz.
    rewrite map_size_insert_None in Hsz by done.
    pose proof (map_subseteq_size _ _
      (map_filter_subseteq (λ kv : K * A, isFound kv.2 = true) m)) as Hle.
    destruct (isFound x) eqn:Hx.
    + rewrite map_filter_insert_True by done.
      rewrite map_size_insert_None by (by rewrite map_lookup_filter_None; left).
      rewrite IH by lia. rewrite wrap64_small; lia.
    + rewrite map_filter_insert_False by (simpl; congruence).
      rewrite delete_id by done. apply IH. lia.
Qed.

Lemma foundEntries_size {K A : Type} `{Countable K} (isFound : A → bool)
    (visited : gmap K A) :
  (size (foundEntries isFound visited) ≤ size visited)%nat.
Proof. apply map_subseteq_size, map_filter_subseteq. Qed.

(** ** What a goroutine holds

    The bookkeeping used to state the invariant of the runs: for every
    goroutine, the units of the two wait-group counters that are its to
    give back, and what it holds of [dhtMutex]. *)

Section Discipline.
Context {Src : Source}.

(** Holding [dhtMutex] for writing, a goroutine may know the record stored
    under a key ([known]), and may have turned the record of a key from not
    found to found without having started [nodeInfo] for it yet ([owes]). *)
Inductive hold :=
| Free
| Reading
| Writing (known : option (DhtKey * attempt)) (owes : option DhtKey).

Record ctx := {
  own : Phase;
  cd : nat;
  cn : nat;
  ch : hold;
}.

Definition credit (c : ctx) (wg : Phase) : nat :=
  match wg with Dht => cd c | NodeInfo => cn c end.

Definition withHold (h : hold) (c : ctx) : ctx :=
  {| own := own c; cd := cd c; cn := cn c; ch := h |}.

Definition withCredit (wg : Phase) (f : nat → nat) (c : ctx) : ctx :=
  match wg with
  | Dht => {| own := own c; cd := f (cd c); cn := cn c; ch := ch c |}
  | NodeInfo => {| own := own c; cd := cd c; cn := f (cn c); ch := ch c |}
  end.

Definition isWriting (c : ctx) : Prop :=
  match ch c with Writing _ _ => True | _ => False end.

Definition knownOf (c : ctx) : option (DhtKey * attempt) :=
  match ch c with Writing known _ => known | _ => None end.

Definition owesOf (c : ctx) : option DhtKey :=
  match ch c with Writing _ owes => owes | _ => None end.

(** The goroutine took part of its body: its holdings after operation [e]
    on node [n]. *)
Definition ctxAfter (n : node) (e : effect) (c : ctx) : ctx :=
  match e with
  | EvRLock Dht => withHold Reading c
  | EvRUnlock Dht => withHold Free c
  | EvLock Dht => withHold (Writing None None) c
  | EvUnlock Dht => withHold Free c
  | EvDhtLoad key =>
      match ch c with
      | Writing _ owes => withHold (Writing (Some (key, dhtLookup n key)) owes) c
      | _ => c
      end
  | EvDhtStore key info =>
      withHold
        (Writing (Some (key, info))
           (if negb (attemptFound (dhtLookup n key)) && attemptFound info
            then Some key else None)) c
  | EvAdd wg => withCredit wg S c
  | EvDone wg => withCredit wg pred c
  | EvGo (GoDhtPing _ _) => withCredit Dht pred c
  | EvGo (GoNodeInfo _ _) =>
      withCredit NodeInfo pred (withHold (Writing (knownOf c) None) c)
  | _ => c
  end.

(** What operation [e] needs of the holdings of whoever performs it. *)
Definition pre (e : effect) (c : ctx) : Prop :=
  match e with
  | EvRLock Dht | EvLock Dht => ch c = Free
  | EvRUnlock Dht => ch c = Reading
  | EvUnlock Dht => ∃ known, ch c = Writing known None
  | EvDhtStore key info =>
      ∃ old, ch c = Writing (Some (key, old)) None ∧
             (attemptFound info = true ∨ attemptFound old = false)
  | EvDone wg => (1 ≤ credit c wg)%nat
  | EvGo t =>
      (1 ≤ credit c (taskPhase t))%nat ∧
      match t with
      | GoNodeInfo pubkey _ => ∃ known, ch c = Writing known (Some (dhtKey pubkey))
      | GoDhtPing _ _ => True
      end
  | _ => True
  end.

(** What is asked of a goroutine started by [go] on top of [pre]: it is
    counted in the wait group of its own phase as long as it runs, only a
    [dhtPing] goroutine adds to a counter, none waits, and one that starts a
    goroutine of its own phase holds the unit for it besides its own. *)
Definition workerPre (e : effect) (c : ctx) : Prop :=
  (1 ≤ credit c (own c))%nat ∧
  match e with
  | EvAdd _ => own c = Dht
  | EvWait _ => False
  | EvGo t => own c = taskPhase t → (2 ≤ credit c (own c))%nat
  | _ => True
  end.

(** The body [p] keeps the discipline from holdings [c] on, whatever it
    reads and whatever the collaborators answer. *)
Fixpoint ok (p : prog) (c : ctx) : Prop :=
  let op e k := workerPre e c ∧ pre e c ∧ ok k (ctxAfter newNode e c) in
  match p with
  | Return => cd c = 0%nat ∧ cn c = 0%nat ∧ ch c = Free
  | RLock mu k => op (EvRLock mu) k
  | RUnlock mu k => op (EvRUnlock mu) k
  | Lock mu k => op (EvLock mu) k
  | Unlock mu k => op (EvUnlock mu) k
  | DhtLoad key k =>
      workerPre (EvDhtLoad key) c ∧
      ∀ n, ok (k (dhtLookup n key)) (ctxAfter n (EvDhtLoad key) c)
  | DhtStore key info k =>
      workerPre (EvDhtStore key info) c ∧ pre (EvDhtStore key info) c ∧
      ∀ n, knownOf c = Some (key, dhtLookup n key) →
           ok k (ctxAfter n (EvDhtStore key info) c)
  | NodeInfoHas key k => workerPre (EvNodeInfoHas key) c ∧ ∀ b, ok (k b) c
  | NodeInfoStore key j k => op (EvNodeInfoStore key j) k
  | WgAdd wg k => op (EvAdd wg) k
  | WgDone wg k => op (EvDone wg) k
  | WgWait wg k => False
  | Go t k => op (EvGo t) k
  | RandIntn bound k => workerPre (EvRand 0) c ∧ ∀ r, ok (k r) c
  | Sleep d k => op (EvSleep d) k
  | CoreDHTPing pubkey coords k =>
      workerPre (EvDHTPing pubkey coords) c ∧ ∀ reply, ok (k reply) c
  | CoreGetNodeInfo pubkey coords k =>
      workerPre (EvGetNodeInfo pubkey coords) c ∧ ∀ reply, ok (k reply) c
  | Println e k => op (EvPrintln e) k
  end.

(** The holdings of a goroutine when [go] starts it: the unit that was added
    to the counter of its phase for it. *)
Definition childCtx (t : task) : ctx :=
  match t with
  | GoDhtPing _ _ => {| own := Dht; cd := 1; cn := 0; ch := Free |}
  | GoNodeInfo _ _ => {| own := NodeInfo; cd := 0; cn := 1; ch := Free |}
  end.

End Discipline.

(** ** The code keeps the discipline *)

Section CodeOk.
Context {Src : Source}.

Lemma withCredit_pred_S (wg : Phase) (c : ctx) :
  withCredit wg pred (withCredit wg S c) = c.
Proof. by destruct c, wg. Qed.

Lemma ok_retryLoop {A : Type} (call : (A * option error → prog) → prog)
    (fuel : nat) (idx : Z) (res : A) (err : option error)
    (k : A → option error → prog) (c : ctx) :
  (1 ≤ credit c (own c))%nat →
  (∀ kk, (∀ reply, ok (kk reply) c) → ok (call kk) c) →
  (∀ res' err', ok (k res' err') c) →
  ok (retryLoop call fuel idx res err k) c.
Proof.
  intros Hlive Hcall Hk. revert idx res err.
  induction fuel as [|fuel IH]; intros idx res err; simpl; [apply Hk|].
  split; [by split|]. intros r. split; [by split|]. split; [done|].
  apply Hcall. intros [res' [e|]]; simpl; [apply IH | apply Hk].
Qed.

Lemma ok_fanOut (infos : list DHTEntry) (k : prog) (c : ctx) :
  own c = Dht → (1 ≤ cd c)%nat → ok k c → ok (fanOut infos k) c.
Proof.
  intros Hown Hcd Hk. induction infos as [|info rest IH]; [done|].
  assert (1 ≤ credit c (own c))%nat as Hlive by (by rewrite Hown).
  cbn [fanOut ok].
  split; [by split|]. split; [done|].
  split; [destruct c; simpl in *; subst; split; simpl; [lia|intros _; lia]|].
  split; [split; [|done]; destruct c; simpl in *; lia|].
  change (ok (fanOut rest k) (withCredit Dht pred (withCredit Dht S c))).
  by rewrite (withCredit_pred_S Dht).
Qed.

Lemma ok_dhtPingRecord (pubkey : BoxPubKey) (coords : list N)
    (res : DHTRes) (err : option error) :
  ok (dhtPingRecord pubkey coords res err)
     {| own := Dht; cd := 1; cn := 0; ch := Free |}.
Proof.
  unfold dhtPingRecord. rewrite newAttempt_found.
  split; [by split|]. split; [done|]. split; [by split|].
  intros n. simpl.
  set (key := dhtKey pubkey). set (old := dhtLookup n key).
  set (info := newAttempt pubkey coords res (bool_decide (err = None))).
  assert (attemptFound info = bool_decide (err = None)) as Hinfo
    by apply newAttempt_found.
  assert (∀ known,
    ok (Unlock Dht (WgDone Dht Return))
       {| own := Dht; cd := 1; cn := 0; ch := Writing known None |}) as Hend.
  { intros known. repeat split; simpl; eauto. }
  destruct (bool_decide (err = None)) eqn:Herr, (attemptFound old) eqn:Hold;
    simpl; try apply Hend.
  - split; [by split|]. split; [exists old; auto|].
    intros n' Hn'. injection Hn' as <-. unfold withHold; simpl.
    rewrite Hold, Hinfo. simpl. apply Hend.
  - split; [by split|]. split; [exists old; auto|].
    intros n' Hn'. injection Hn' as <-. unfold withHold; simpl.
    rewrite Hold, Hinfo. simpl.
    split; [by split|]. split; [done|].
    split; [by split|]. split; [split; [simpl; lia | eauto]|].
    apply ok_fanOut; [done | simpl; lia | apply Hend].
  - split; [by split|]. split; [exists old; auto|].
    intros n' Hn'. injection Hn' as <-. unfold withHold; simpl.
    rewrite Hold, Hinfo. simpl. apply Hend.
Qed.

Lemma ok_dhtPing (pubkey : BoxPubKey) (coords : list N) :
  ok (dhtPing pubkey coords) (childCtx (GoDhtPing pubkey coords)).
Proof.
  unfold dhtPing. simpl.
  split; [by split|]. split; [done|]. split; [by split|].
  intros n. simpl.
  destruct (attemptFound (dhtLookup n (dhtKey pubkey))).
  - repeat split; simpl; auto.
  - split; [by split|]. split; [done|].
    apply ok_retryLoop; [simpl; lia | | intros; apply ok_dhtPingRecord].
    intros kk Hkk. by split; [split|].
Qed.

Lemma ok_nodeInfo (pubkey : BoxPubKey) (coords : list N) :
  ok (nodeInfo pubkey coords) (childCtx (GoNodeInfo pubkey coords)).
Proof.
  unfold nodeInfo. simpl.
  split; [by split|]. split; [done|]. split; [by split|].
  intros [|].
  - repeat split; simpl; auto.
  - split; [by split|]. split; [done|].
    apply ok_retryLoop; [simpl; lia | intros kk Hkk; by split; [split|] |].
    intros res' [e|]; unfold nodeInfoRecord.
    + repeat split; simpl; auto.
    + destruct (unmarshal res'); repeat split; simpl; auto.
Qed.

Lemma ok_body (t : task) : ok (body t) (childCtx t).
Proof. destruct t; [apply ok_dhtPing | apply ok_nodeInfo]. Qed.

End CodeOk.

(** ** The invariant of the runs *)

Lemma sum_list_with_insert {A : Type} (f : A → nat) (l : list A)
    (i : nat) (x y : A) :
  l !! i = Some x →
  (sum_list_with f (<[i:=y]> l) + f x = sum_list_with f l + f y)%nat.
Proof.
  revert i. induction l as [|a l IH]; intros [|i] Hi; simpl in *;
    try discriminate.
  - injection Hi as ->. lia.
  - specialize (IH i Hi). lia.
Qed.

Lemma sum_list_with_lookup_le {A : Type} (f : A → nat) (l : list A)
    (i : nat) (x : A) :
  l !! i = Some x → (f x ≤ sum_list_with f l)%nat.
Proof.
  revert i. induction l as [|a l IH]; intros [|i] Hi; simpl in *;
    try discriminate.
  - injection Hi as ->. lia.
  - specialize (IH i Hi). lia.
Qed.

Lemma sum_list_with_zero {A : Type} (f : A → nat) (l : list A)
    (i : nat) (x : A) :
  sum_list_with f l = 0%nat → l !! i = Some x → f x = 0%nat.
Proof. intros H0 Hi. pose proof (sum_list_with_lookup_le f l i x Hi). lia. Qed.

Section Invariant.
Context {Src : Source}.
Context (pubkey0 : BoxPubKey) (coords0 : list N).

(** What is left of [mainCrawl] after [j] operations. *)
Definition mainFrom (j : nat) : prog :=
  match j with
  | 0%nat => mainCrawl pubkey0 coords0
  | 1%nat => Go (GoDhtPing pubkey0 coords0)
               (WgWait Dht (WgWait NodeInfo (Lock Dht (Lock NodeInfo Return))))
  | 2%nat => WgWait Dht (WgWait NodeInfo (Lock Dht (Lock NodeInfo Return)))
  | 3%nat => WgWait NodeInfo (Lock Dht (Lock NodeInfo Return))
  | 4%nat => Lock Dht (Lock NodeInfo Return)
  | 5%nat => Lock NodeInfo Return
  | _ => Return
  end.

(** [main] holds the unit it added for the first [dhtPing] until it has
    started it, and [dhtMutex] from its [Lock] on. *)
Definition mainCtx (j : nat) : ctx :=
  {| own := Dht;
     cd := if decide (j = 1%nat) then 1 else 0;
     cn := 0;
     ch := if decide (5 ≤ j)%nat then Writing None None else Free |}.

Definition typed (j : nat) (c : ctx) (g : goroutine) : Prop :=
  match running g with
  | None => code g = mainFrom j ∧ c = mainCtx j
  | Some t => own c = taskPhase t ∧ ok (code g) c
  end.

(** Whether the operation is [go n.nodeInfo(pubkey, _)]. *)
Definition startsNodeInfo (pubkey : BoxPubKey) (e : effect) : bool :=
  match e with
  | EvGo (GoNodeInfo pk _) => bool_decide (pk = pubkey)
  | _ => false
  end.

(** How many times [nodeInfo] was started for [pubkey]. *)
Definition nodeInfoStarted (pubkey : BoxPubKey) (h : list (nat * effect)) : nat :=
  sum_list_with (λ ie, if startsNodeInfo pubkey ie.2 then 1%nat else 0%nat) h.

Definition owing (key : DhtKey) (cs : list ctx) : nat :=
  sum_list_with (λ c, if decide (owesOf c = Some key) then 1%nat else 0%nat) cs.

Definition credits (wg : Phase) (cs : list ctx) : nat :=
  sum_list_with (λ c, credit c wg) cs.

(** The part of the invariant that relates the holdings to the node and to
    the history. *)
Record Ghost (cs : list ctx) (n : node) (h : list (nat * effect)) : Prop := {
  inv_credit : ∀ wg, waitGroup n wg = Z.of_nat (credits wg cs);
  inv_writer_unique : ∀ i i' c c',
    cs !! i = Some c → cs !! i' = Some c' → isWriting c → isWriting c' → i = i';
  inv_writer : ∀ i c,
    cs !! i = Some c → isWriting c → writer (dhtMutex n) = true;
  inv_known : ∀ i c key a,
    cs !! i = Some c → knownOf c = Some (key, a) → dhtLookup n key = a;
  inv_owes : ∀ pubkey,
    (nodeInfoStarted pubkey h + owing (dhtKey pubkey) cs)%nat =
    if attemptFound (dhtLookup n (dhtKey pubkey)) then 1%nat else 0%nat;
}.

(** The invariant: [main] is goroutine 0 and has performed [j] operations,
    and the goroutines have the holdings [cs]. *)
Record Inv (j : nat) (cs : list ctx) (s : state) : Prop := {
  inv_typed : Forall2 (typed j) cs (goroutines s);
  inv_main : ∃ g0, goroutines s !! 0%nat = Some g0 ∧ running g0 = None;
  inv_main_only : ∀ i g,
    goroutines s !! i = Some g → running g = None → i = 0%nat;
  inv_ghost : Ghost cs (shared s) (history s);
  inv_drained_dht : (3 ≤ j)%nat → dhtWaitGroup (shared s) = 0;
  inv_drained_ni : (4 ≤ j)%nat → nodeInfoWaitGroup (shared s) = 0;
  inv_waited_dht : (0%nat, EvWait Dht) ∈ history s → (3 ≤ j)%nat;
  inv_waited_ni : (0%nat, EvWait NodeInfo) ∈ history s → (4 ≤ j)%nat;
  inv_boot : (j ≤ 1)%nat → length (goroutines s) = 1%nat;
}.

(** The holdings of the goroutines a [go] adds. *)
Definition kids (e : effect) : list ctx :=
  match e with EvGo t => [childCtx t] | _ => [] end.

Lemma credit_step (n : node) (e : effect) (cs : list ctx) (i : nat) (c : ctx) :
  cs !! i = Some c → pre e c →
  (∀ wg, waitGroup n wg = Z.of_nat (credits wg cs)) →
  ∀ wg, waitGroup (perform e n) wg =
        Z.of_nat (credits wg (<[i := ctxAfter n e c]> cs ++ kids e)).
Proof.
  intros Hi Hpre Hn wg. unfold credits. rewrite sum_list_with_app.
  pose proof (sum_list_with_insert (λ c, credit c wg) cs i c
                (ctxAfter n e c) Hi) as Hsum.
  specialize (Hn wg). unfold credits in Hn.
  destruct c as [o x y h].
  destruct e as [[]|[]|[]|[]| | | | |[]|[]|[]|[[]|[]]| | | | |], wg;
    simpl in *; try (destruct h); simpl in *; lia.
Qed.

Lemma after_lookup (cs ks : list ctx) (i i' : nat) (c c' x : ctx) :
  cs !! i = Some c →
  (<[i := c']> cs ++ ks) !! i' = Some x →
  (i' = i ∧ x = c') ∨ (i' ≠ i ∧ cs !! i' = Some x) ∨ x ∈ ks.
Proof.
  intros Hi Hx. apply lookup_app_Some in Hx as [Hx|[_ Hx]].
  - destruct (decide (i' = i)) as [->|Hne].
    + rewrite list_lookup_insert_eq in Hx by (by eapply lookup_lt_Some).
      left. split; congruence.
    + rewrite list_lookup_insert_ne in Hx by done. right; left. done.
  - right; right. by eapply list_elem_of_lookup_2.
Qed.

Lemma kids_free (e : effect) (x : ctx) : x ∈ kids e → ch x = Free.
Proof.
  destruct e; simpl; try (by intros ?%elem_of_nil).
  intros ->%list_elem_of_singleton. by destruct t.
Qed.

(** How an operation changes who holds [dhtMutex] for writing. *)
Lemma hold_cases (n : node) (e : effect) (c : ctx) :
  pre e c →
  (e = EvLock Dht ∧ ch c = Free) ∨
  (e = EvUnlock Dht ∧ isWriting c) ∨
  ((isWriting (ctxAfter n e c) ↔ isWriting c) ∧
   writer (dhtMutex (perform e n)) = writer (dhtMutex n)).
Proof.
  intros Hpre. unfold isWriting.
  destruct e as [[]|[]|[]|[]| | | | |[]|[]|[]|[? ?|? ?]| | | | |];
    simpl in *; auto; try (by right; right).
  - right; right. rewrite Hpre. simpl. split; reflexivity.
  - right; right. rewrite Hpre. simpl. split; reflexivity.
  - right; left. destruct Hpre as [known ->]. done.
  - right; right. destruct (ch c) eqn:Hc; simpl; rewrite ?Hc; split; reflexivity.
  - right; right. destruct Hpre as (old & -> & _). simpl. split; reflexivity.
  - right; right. destruct Hpre as (_ & known & ->). simpl. split; reflexivity.
Qed.

Lemma writer_step (n : node) (e : effect) (cs : list ctx) (i : nat) (c : ctx) :
  cs !! i = Some c → pre e c → enabled n e = true →
  (∀ i1 i2 c1 c2,
     cs !! i1 = Some c1 → cs !! i2 = Some c2 → isWriting c1 → isWriting c2 →
     i1 = i2) →
  (∀ i1 c1, cs !! i1 = Some c1 → isWriting c1 → writer (dhtMutex n) = true) →
  let cs' := <[i := ctxAfter n e c]> cs ++ kids e in
  (∀ i1 i2 c1 c2,
     cs' !! i1 = Some c1 → cs' !! i2 = Some c2 → isWriting c1 → isWriting c2 →
     i1 = i2) ∧
  (∀ i1 c1, cs' !! i1 = Some c1 → isWriting c1 →
            writer (dhtMutex (perform e n)) = true).
Proof.
  intros Hi Hpre Hen Huniq Hwr cs'.
  assert (∀ x, x ∈ kids e → ¬ isWriting x) as Hkids.
  { intros x Hx%kids_free. unfold isWriting. rewrite Hx. intros []. }
  destruct (hold_cases n e c Hpre) as [[-> Hfree]|[[-> Hw]|[Hiff Hsame]]].
  - (* Lock: nobody held it *)
    simpl in Hen. apply andb_true_iff in Hen as [Hnw _].
    apply negb_true_iff in Hnw.
    assert (∀ i1 c1, cs' !! i1 = Some c1 → isWriting c1 → i1 = i) as Honly.
    { intros i1 c1 H1 Hw1.
      destruct (after_lookup _ _ _ _ _ _ _ Hi H1) as [[-> _]|[[_ H1']|H1']];
        [done| |by apply Hkids in H1'].
      specialize (Hwr _ _ H1' Hw1). simpl in Hwr. congruence. }
    split; [|done].
    intros i1 i2 c1 c2 H1 H2 Hw1 Hw2.
    rewrite (Honly _ _ H1 Hw1), (Honly _ _ H2 Hw2). done.
  - (* Unlock: the holder lets go *)
    assert (∀ i1 c1, cs' !! i1 = Some c1 → ¬ isWriting c1) as Hnone.
    { intros i1 c1 H1 Hw1.
      destruct (after_lookup _ _ _ _ _ _ _ Hi H1) as [[-> ->]|[[Hne H1']|H1']];
        [done| |by apply Hkids in H1'].
      apply Hne. by apply (Huniq _ _ _ _ H1' Hi). }
    split.
    + intros i1 i2 c1 c2 H1 _ Hw1 _. by apply Hnone in H1.
    + intros i1 c1 H1 Hw1. by apply Hnone in H1.
  - assert (∀ i1 c1, cs' !! i1 = Some c1 → isWriting c1 →
                     ∃ c1', cs !! i1 = Some c1' ∧ isWriting c1') as Hback.
    { intros i1 c1 H1 Hw1.
      destruct (after_lookup _ _ _ _ _ _ _ Hi H1) as [[-> ->]|[[Hne H1']|H1']];
        [|by eauto|by apply Hkids in H1'].
      exists c. split; [done|]. by apply Hiff. }
    split.
    + intros i1 i2 c1 c2 H1 H2 Hw1 Hw2.
      destruct (Hback _ _ H1 Hw1) as (c1' & H1' & Hw1').
      destruct (Hback _ _ H2 Hw2) as (c2' & H2' & Hw2').
      by apply (Huniq _ _ _ _ H1' H2').
    + intros i1 c1 H1 Hw1.
      destruct (Hback _ _ H1 Hw1) as (c1' & H1' & Hw1').
      rewrite Hsame. by apply (Hwr _ _ H1').
Qed.

Lemma knownOf_isWriting (c : ctx) (ka : DhtKey * attempt) :
  knownOf c = Some ka → isWriting c.
Proof. unfold knownOf, isWriting. by destruct (ch c). Qed.

Lemma owesOf_isWriting (c : ctx) (key : DhtKey) :
  owesOf c = Some key → isWriting c.
Proof. unfold owesOf, isWriting. by destruct (ch c). Qed.

Lemma dhtLookup_store (n : node) (key key' : DhtKey) (info : attempt) :
  dhtLookup (perform (EvDhtStore key info) n) key' =
  if decide (key = key') then info else dhtLookup n key'.
Proof.
  unfold dhtLookup; simpl. rewrite lookup_insert. by destruct (decide _).
Qed.

Lemma dhtLookup_other (n : node) (e : effect) (key : DhtKey) :
  dhtVisited (perform e n) = dhtVisited n →
  dhtLookup (perform e n) key = dhtLookup n key.
Proof. unfold dhtLookup. by intros ->. Qed.

(** How an operation changes the map and what its goroutine knows of it. *)
Lemma known_cases (n : node) (e : effect) (c : ctx) :
  pre e c →
  (∃ key info, e = EvDhtStore key info ∧ isWriting c) ∨
  (dhtVisited (perform e n) = dhtVisited n ∧
   ∀ key a, knownOf (ctxAfter n e c) = Some (key, a) →
            knownOf c = Some (key, a) ∨ a = dhtLookup n key).
Proof.
  intros Hpre. unfold knownOf, isWriting.
  destruct e as [[]|[]|[]|[]| | | | |[]|[]|[]|[? ?|? ?]| | | | |];
    simpl in *; try (right; split; [done|]; intros key' a' H'; try done; by left).
  - right. split; [done|]. intros key' a'.
    destruct (ch c) eqn:Hc; simpl; rewrite ?Hc; try done.
    intros [= <- <-]. by right.
  - left. destruct Hpre as (old & -> & _). eauto.
Qed.

Lemma known_step (n : node) (e : effect) (cs : list ctx) (i : nat) (c : ctx) :
  cs !! i = Some c → pre e c →
  (∀ i1 i2 c1 c2,
     cs !! i1 = Some c1 → cs !! i2 = Some c2 → isWriting c1 → isWriting c2 →
     i1 = i2) →
  (∀ i1 c1 key a,
     cs !! i1 = Some c1 → knownOf c1 = Some (key, a) → dhtLookup n key = a) →
  ∀ i1 c1 key a,
    (<[i := ctxAfter n e c]> cs ++ kids e) !! i1 = Some c1 →
    knownOf c1 = Some (key, a) → dhtLookup (perform e n) key = a.
Proof.
  intros Hi Hpre Huniq Hknown i1 c1 key a H1 Hk.
  assert (∀ x, x ∈ kids e → knownOf x = None) as Hkids.
  { intros x Hx%kids_free. unfold knownOf. by rewrite Hx. }
  destruct (after_lookup _ _ _ _ _ _ _ Hi H1) as [[-> ->]|[[Hne H1']|H1']];
    [| |apply Hkids in H1'; congruence].
  - destruct (known_cases n e c Hpre) as [(key0 & info & -> & Hw)|[Hsame Hk']].
    + simpl in Hk. unfold knownOf in Hk; simpl in Hk. injection Hk as <- <-.
      rewrite dhtLookup_store. by rewrite decide_True.
    + rewrite dhtLookup_other by done.
      destruct (Hk' _ _ Hk) as [Hold| ->]; [by eapply Hknown|done].
  - destruct (known_cases n e c Hpre) as [(key0 & info & -> & Hw)|[Hsame Hk']].
    + exfalso. apply Hne. eapply Huniq; eauto using knownOf_isWriting.
    + rewrite dhtLookup_other by done. by eapply Hknown.
Qed.

(** How an operation changes what is owed. *)
Lemma owes_cases (n : node) (e : effect) (c : ctx) :
  pre e c →
  (∃ key info old,
     e = EvDhtStore key info ∧ ch c = Writing (Some (key, old)) None ∧
     (attemptFound info = true ∨ attemptFound old = false)) ∨
  (∃ pubkey coords,
     e = EvGo (GoNodeInfo pubkey coords) ∧ owesOf c = Some (dhtKey pubkey) ∧
     owesOf (ctxAfter n e c) = None) ∨
  ((∀ pubkey, startsNodeInfo pubkey e = false) ∧
   owesOf (ctxAfter n e c) = owesOf c ∧
   dhtVisited (perform e n) = dhtVisited n).
Proof.
  intros Hpre. unfold owesOf.
  destruct e as [[]|[]|[]|[]| | | | |[]|[]|[]|[? ?|? ?]| | | | |];
    simpl in *; try (by right; right).
  - right; right. by rewrite Hpre.
  - right; right. by rewrite Hpre.
  - right; right. by rewrite Hpre.
  - right; right. destruct Hpre as [known ->]. done.
  - right; right. destruct (ch c) eqn:Hc; simpl; rewrite ?Hc; done.
  - left. destruct Hpre as (old & Hc & Hf). by exists key, info, old.
  - right; left. destruct Hpre as (_ & known & ->). eauto.
Qed.

Lemma owing_kids (key : DhtKey) (e : effect) : owing key (kids e) = 0%nat.
Proof. destruct e as [| | | | | | | | | | |[]| | | | |]; done. Qed.

Lemma owes_step (n : node) (e : effect) (cs : list ctx) (i : nat) (c : ctx)
    (h : list (nat * effect)) :
  cs !! i = Some c → pre e c →
  (∀ i1 c1 key a,
     cs !! i1 = Some c1 → knownOf c1 = Some (key, a) → dhtLookup n key = a) →
  (∀ pubkey,
     (nodeInfoStarted pubkey h + owing (dhtKey pubkey) cs)%nat =
     if attemptFound (dhtLookup n (dhtKey pubkey)) then 1%nat else 0%nat) →
  ∀ pubkey,
    (nodeInfoStarted pubkey (h ++ [(i, e)]) +
     owing (dhtKey pubkey) (<[i := ctxAfter n e c]> cs ++ kids e))%nat =
    if attemptFound (dhtLookup (perform e n) (dhtKey pubkey))
    then 1%nat else 0%nat.
Proof.
  intros Hi Hpre Hknown Hinv pubkey. specialize (Hinv pubkey).
  unfold nodeInfoStarted in *. unfold owing at 1.
  rewrite !sum_list_with_app. fold (owing (dhtKey pubkey) (kids e)).
  rewrite owing_kids. unfold owing in Hinv. simpl.
  set (F := λ c : ctx,
         if decide (owesOf c = Some (dhtKey pubkey)) then 1%nat else 0%nat) in *.
  pose proof (sum_list_with_insert F cs i c (ctxAfter n e c) Hi) as Hsum.
  destruct (owes_cases n e c Hpre)
    as [(key & info & old & -> & Hc & Hf)|
        [(pk & crd & -> & Hc & Hc')|(Hstart & Hsame & Hvis)]].
  - assert (dhtLookup n key = old) as Hold.
    { eapply Hknown; [done|]. unfold knownOf. by rewrite Hc. }
    assert (F c = 0%nat) as HFc by (unfold F, owesOf; by rewrite Hc).
    rewrite dhtLookup_store.
    set (c' := ctxAfter n (EvDhtStore key info) c) in *.
    assert (F c' = if decide (key = dhtKey pubkey)
                   then if negb (attemptFound old) && attemptFound info
                        then 1%nat else 0%nat
                   else 0%nat) as HFc'.
    { unfold F, owesOf, c'. simpl. rewrite Hold.
      destruct (negb (attemptFound old) && attemptFound info),
        (decide (key = dhtKey pubkey)) as [->|Hne];
        try (by rewrite decide_True); rewrite decide_False; congruence. }
    clearbody c'. simpl.
    destruct (decide (key = dhtKey pubkey)) as [->|Hne]; [|lia].
    rewrite Hold in Hinv.
    destruct (attemptFound old), (attemptFound info), Hf; simpl in *;
      try discriminate; lia.
  - set (c' := ctxAfter n (EvGo (GoNodeInfo pk crd)) c) in *.
    assert (F c' = 0%nat) as HFc' by (unfold F; by rewrite Hc').
    clearbody c'. simpl.
    destruct (bool_decide (pk = pubkey)) eqn:Hpk.
    + apply bool_decide_eq_true in Hpk as ->.
      assert (F c = 1%nat) as HFc
        by (unfold F; rewrite Hc; by rewrite decide_True).
      lia.
    + apply bool_decide_eq_false in Hpk.
      assert (F c = 0%nat) as HFc.
      { unfold F. rewrite Hc. rewrite decide_False; [done|].
        intros [= ?%dhtKey_inj]. done. }
      lia.
  - assert (F (ctxAfter n e c) = F c) as HFc by (unfold F; by rewrite Hsame).
    rewrite Hstart. rewrite dhtLookup_other by done. lia.
Qed.

(** A record that is found stays found over one operation of a goroutine
    that keeps the discipline. *)
Lemma sticky_step (n : node) (e : effect) (c : ctx) (key : DhtKey) :
  pre e c →
  (∀ key' a, knownOf c = Some (key', a) → dhtLookup n key' = a) →
  attemptFound (dhtLookup n key) = true →
  attemptFound (dhtLookup (perform e n) key) = true.
Proof.
  intros Hpre Hknown Hfound.
  destruct (owes_cases n e c Hpre)
    as [(key0 & info & old & -> & Hc & Hf)|
        [(pk & crd & -> & _)|(_ & _ & Hvis)]].
  - rewrite dhtLookup_store. destruct (decide (key0 = key)) as [->|]; [|done].
    assert (dhtLookup n key = old) as Hold
      by (apply Hknown; unfold knownOf; by rewrite Hc).
    destruct Hf as [Hf|Hf]; [done|congruence].
  - done.
  - by rewrite dhtLookup_other.
Qed.

(** One operation of a goroutine started by [go]. *)
Lemma ok_next (n : node) (p k : prog) (inp : input) (e : effect) (c : ctx) :
  ok p c → next n p inp = Some (k, e) →
  (∀ key a, knownOf c = Some (key, a) → dhtLookup n key = a) →
  workerPre e c ∧ pre e c ∧ ok k (ctxAfter n e c).
Proof.
  intros Hok Hnext Hknown.
  destruct p; simpl in *; try discriminate; try done;
    try (injection Hnext as <- <-; exact Hok).
  - injection Hnext as <- <-. destruct Hok as [Hw Hk]. by split.
  - injection Hnext as <- <-. destruct Hok as (Hw & Hpre & Hk).
    split; [done|]. split; [done|]. apply Hk.
    destruct Hpre as (old & Hc & _). unfold knownOf in *. rewrite Hc in *.
    f_equal. f_equal. symmetry. by apply Hknown.
  - injection Hnext as <- <-. destruct Hok as [Hw Hk]. by split.
  - destruct inp; try discriminate. case_bool_decide; [|discriminate].
    injection Hnext as <- <-. destruct Hok as [Hw Hk]. by split.
  - destruct inp; try discriminate.
    injection Hnext as <- <-. destruct Hok as [Hw Hk]. by split.
  - destruct inp; try discriminate.
    injection Hnext as <- <-. destruct Hok as [Hw Hk]. by split.
Qed.

Definition mainEffect (j : nat) : effect :=
  match j with
  | 0%nat => EvAdd Dht
  | 1%nat => EvGo (GoDhtPing pubkey0 coords0)
  | 2%nat => EvWait Dht
  | 3%nat => EvWait NodeInfo
  | 4%nat => EvLock Dht
  | _ => EvLock NodeInfo
  end.

(** One operation of [main]. *)
Lemma main_next (n : node) (j : nat) (k : prog) (inp : input) (e : effect) :
  next n (mainFrom j) inp = Some (k, e) →
  (j < 6)%nat ∧ e = mainEffect j ∧ k = mainFrom (S j) ∧
  pre e (mainCtx j) ∧ ctxAfter n e (mainCtx j) = mainCtx (S j).
Proof.
  do 6 (destruct j as [|j];
        [simpl; intros [= <- <-]; repeat split; simpl; lia|]).
  discriminate.
Qed.

Lemma Ghost_step (cs : list ctx) (n : node) (h : list (nat * effect))
    (i : nat) (c : ctx) (e : effect) :
  Ghost cs n h → cs !! i = Some c → pre e c → enabled n e = true →
  Ghost (<[i := ctxAfter n e c]> cs ++ kids e) (perform e n) (h ++ [(i, e)]).
Proof.
  intros [Hcr Huniq Hwr Hknown Howes] Hi Hpre Hen.
  destruct (writer_step n e cs i c Hi Hpre Hen Huniq Hwr) as [Huniq' Hwr'].
  split.
  - by apply credit_step.
  - exact Huniq'.
  - exact Hwr'.
  - by apply known_step.
  - by apply owes_step.
Qed.

(** The goroutines a [go] adds. *)
Definition spawn (e : effect) : list goroutine :=
  match e with
  | EvGo t => [{| running := Some t; code := body t |}]
  | _ => []
  end.

Lemma step_inv (s s' : state) (i : nat) (inp : input) :
  step s i inp = Some s' →
  ∃ g k e,
    goroutines s !! i = Some g ∧
    next (shared s) (code g) inp = Some (k, e) ∧
    enabled (shared s) e = true ∧
    s' = {| shared := perform e (shared s);
            goroutines :=
              <[i := {| running := running g; code := k |}]> (goroutines s)
              ++ spawn e;
            history := history s ++ [(i, e)] |}.
Proof.
  unfold step, exec1. intros Hstep.
  destruct (goroutines s !! i) as [g|] eqn:Hg; simpl in Hstep; [|discriminate].
  destruct (next (shared s) (code g) inp) as [[k e]|] eqn:Hnext;
    simpl in Hstep; [|discriminate].
  destruct (enabled (shared s) e) eqn:Hen; simpl in Hstep; [|discriminate].
  injection Hstep as <-. exists g, k, e. repeat split; try done.
  f_equal. destruct e; simpl; by rewrite ?app_nil_r.
Qed.

Lemma spawn_typed (j : nat) (e : effect) : Forall2 (typed j) (kids e) (spawn e).
Proof.
  destruct e; simpl; try constructor; [|constructor].
  split; [by destruct t | apply ok_body].
Qed.

Lemma Forall2_after {A B : Type} (P P' : A → B → Prop)
    (cs ks : list A) (gs ws : list B) (i : nat) (c' : A) (g' : B) :
  Forall2 P cs gs →
  P' c' g' →
  (∀ i1 c1 g1, i1 ≠ i → cs !! i1 = Some c1 → gs !! i1 = Some g1 →
               P c1 g1 → P' c1 g1) →
  Forall2 P' ks ws →
  Forall2 P' (<[i := c']> cs ++ ks) (<[i := g']> gs ++ ws).
Proof.
  intros HP Hnew Hold Hks. apply Forall2_app; [|done].
  apply Forall2_same_length_lookup_2.
  - rewrite !length_insert. by eapply Forall2_length.
  - intros i1 c1 g1 H1 H2.
    destruct (decide (i1 = i)) as [->|Hne].
    + apply list_lookup_insert_Some in H1 as [(_ & <- & _)|[? _]]; [|done].
      apply list_lookup_insert_Some in H2 as [(_ & <- & _)|[? _]]; [|done].
      done.
    + rewrite list_lookup_insert_ne in H1 by done.
      rewrite list_lookup_insert_ne in H2 by done.
      eapply Hold; eauto. eapply Forall2_lookup_lr; eauto.
Qed.

Lemma own_ctxAfter (n : node) (e : effect) (c : ctx) :
  own (ctxAfter n e c) = own c.
Proof.
  destruct e as [[]|[]|[]|[]| | | | |[]|[]|[]|[? ?|? ?]| | | | |]; simpl;
    try done.
  by destruct (ch c).
Qed.

Lemma worker_drained (n : node) (e : effect) (c : ctx) (wg : Phase) :
  workerPre e c → pre e c → cd c = 0%nat →
  (wg = NodeInfo → cn c = 0%nat) →
  waitGroup (perform e n) wg = waitGroup n wg.
Proof.
  intros [Hlive Hw] Hpre Hcd Hcn.
  destruct e as [[]|[]|[]|[]| | | | |[]|[]|[]|[? ?|? ?]| | | | |], wg;
    simpl in *; try done; try (rewrite Hw in Hlive; simpl in Hlive); try lia.
  specialize (Hcn eq_refl). lia.
Qed.

Lemma Inv_step_worker (j : nat) (cs : list ctx) (s : state) (i : nat)
    (g : goroutine) (t : task) (k : prog) (e : effect) (inp : input) :
  Inv j cs s →
  goroutines s !! i = Some g → running g = Some t →
  next (shared s) (code g) inp = Some (k, e) →
  enabled (shared s) e = true →
  ∃ c, cs !! i = Some c ∧ workerPre e c ∧ pre e c ∧
    Inv j (<[i := ctxAfter (shared s) e c]> cs ++ kids e)
      {| shared := perform e (shared s);
         goroutines :=
           <[i := {| running := running g; code := k |}]> (goroutines s)
           ++ spawn e;
         history := history s ++ [(i, e)] |}.
Proof.
  intros [Htyped Hmain Honly Hghost Hdd Hdn Hwd Hwn Hboot] Hg Hrun Hnext Hen.
  destruct (Forall2_lookup_r _ _ _ _ _ Htyped Hg) as (c & Hc & Hcg).
  unfold typed in Hcg. rewrite Hrun in Hcg. destruct Hcg as [Hown Hok].
  assert (∀ key a, knownOf c = Some (key, a) → dhtLookup (shared s) key = a)
    as Hknown by (intros; eapply inv_known; eauto).
  destruct (ok_next _ _ _ _ _ _ Hok Hnext Hknown) as (Hw & Hpre & Hok').
  destruct Hmain as (g0 & Hg0 & Hrun0).
  assert (i ≠ 0%nat) as Hi0 by (intros ->; congruence).
  assert (2 ≤ j)%nat as Hj.
  { destruct (decide (j ≤ 1)%nat) as [Hle|]; [|lia].
    apply Hboot in Hle. apply lookup_lt_Some in Hg. lia. }
  exists c. split; [done|]. split; [done|]. split; [done|].
  split; simpl.
  - apply (Forall2_after (typed j) (typed j)); auto using spawn_typed.
    unfold typed; simpl. rewrite Hrun. by rewrite own_ctxAfter.
  - exists g0. split; [|done].
    rewrite lookup_app_l by (rewrite length_insert; by eapply lookup_lt_Some).
    by rewrite list_lookup_insert_ne.
  - intros i1 g1 H1 Hr1.
    apply lookup_app_Some in H1 as [H1|[_ H1]].
    + destruct (decide (i1 = i)) as [->|Hne].
      * apply list_lookup_insert_Some in H1 as [(_ & <- & _)|[? _]]; [|done].
        simpl in Hr1. congruence.
      * rewrite list_lookup_insert_ne in H1 by done. by eapply Honly.
    + destruct e; simpl in H1; try (by rewrite lookup_nil in H1).
      apply list_lookup_singleton_Some in H1 as [_ <-]. done.
  - by apply Ghost_step.
  - intros H3. specialize (Hdd H3).
    pose proof (inv_credit _ _ _ Hghost Dht) as Hcr. simpl in Hcr.
    assert (cd c = 0%nat) as Hcd.
    { apply (sum_list_with_zero (λ c, credit c Dht) cs i c); [|done].
      unfold credits in Hcr. lia. }
    change (waitGroup (perform e (shared s)) Dht = 0).
    rewrite (worker_drained _ e c Dht); try done.
  - intros H4. specialize (Hdd ltac:(lia)). specialize (Hdn H4).
    pose proof (inv_credit _ _ _ Hghost Dht) as Hcr. simpl in Hcr.
    pose proof (inv_credit _ _ _ Hghost NodeInfo) as Hcr'. simpl in Hcr'.
    assert (cd c = 0%nat) as Hcd.
    { apply (sum_list_with_zero (λ c, credit c Dht) cs i c); [|done].
      unfold credits in Hcr. lia. }
    assert (cn c = 0%nat) as Hcn.
    { apply (sum_list_with_zero (λ c, credit c NodeInfo) cs i c); [|done].
      unfold credits in Hcr'. lia. }
    change (waitGroup (perform e (shared s)) NodeInfo = 0).
    rewrite (worker_drained _ e c NodeInfo); try done.
  - intros [H|H%list_elem_of_singleton]%elem_of_app; [by apply Hwd|].
    congruence.
  - intros [H|H%list_elem_of_singleton]%elem_of_app; [by apply Hwn|].
    congruence.
  - lia.
Qed.

Lemma Inv_step_main (j : nat) (cs : list ctx) (s : state)
    (g : goroutine) (k : prog) (e : effect) (inp : input) :
  Inv j cs s →
  goroutines s !! 0%nat = Some g → running g = None →
  next (shared s) (code g) inp = Some (k, e) →
  enabled (shared s) e = true →
  e = mainEffect j ∧
  Inv (S j) (<[0%nat := mainCtx (S j)]> cs ++ kids e)
    {| shared := perform e (shared s);
       goroutines :=
         <[0%nat := {| running := running g; code := k |}]> (goroutines s)
         ++ spawn e;
       history := history s ++ [(0%nat, e)] |}.
Proof.
  intros [Htyped Hmain Honly Hghost Hdd Hdn Hwd Hwn Hboot] Hg Hrun Hnext Hen.
  destruct (Forall2_lookup_r _ _ _ _ _ Htyped Hg) as (c & Hc & Hcg).
  unfold typed in Hcg. rewrite Hrun in Hcg. destruct Hcg as [Hcode ->].
  rewrite Hcode in Hnext.
  destruct (main_next _ _ _ _ _ Hnext) as (Hj & He & -> & Hpre & Hctx).
  split; [done|].
  split; simpl.
  - apply (Forall2_after (typed j) (typed (S j))); auto using spawn_typed.
    + unfold typed; simpl. by rewrite Hrun.
    + intros i1 c1 g1 Hne _ Hg1 Ht. unfold typed in *.
      destruct (running g1) eqn:Hr1; [done|].
      by apply Honly in Hg1.
  - exists {| running := running g; code := mainFrom (S j) |}.
    split; [|exact Hrun].
    rewrite lookup_app_l
      by (rewrite length_insert; by eapply lookup_lt_Some).
    rewrite list_lookup_insert_eq by (by eapply lookup_lt_Some). done.
  - intros i1 g1 H1 Hr1.
    apply lookup_app_Some in H1 as [H1|[_ H1]].
    + destruct (decide (i1 = 0%nat)) as [->|Hne]; [done|].
      rewrite list_lookup_insert_ne in H1 by done. by eapply Honly.
    + destruct e; simpl in H1; try (by rewrite lookup_nil in H1).
      apply list_lookup_singleton_Some in H1 as [_ <-]. done.
  - rewrite <- Hctx. by apply Ghost_step.
  - intros H3. change (waitGroup (perform e (shared s)) Dht = 0).
    destruct j as [|[|[|[|[|[|j]]]]]]; subst e; simpl in *; try lia;
      first [by apply bool_decide_eq_true in Hen | apply Hdd; lia].
  - intros H4. change (waitGroup (perform e (shared s)) NodeInfo = 0).
    destruct j as [|[|[|[|[|[|j]]]]]]; subst e; simpl in *; try lia;
      first [by apply bool_decide_eq_true in Hen | apply Hdn; lia].
  - intros [H|H%list_elem_of_singleton]%elem_of_app;
      [apply Hwd in H; lia|].
    injection H as H. rewrite He in H.
    destruct j as [|[|[|[|[|[|j]]]]]]; simpl in H; try discriminate; lia.
  - intros [H|H%list_elem_of_singleton]%elem_of_app;
      [apply Hwn in H; lia|].
    injection H as H. rewrite He in H.
    destruct j as [|[|[|[|[|[|j]]]]]]; simpl in H; try discriminate; lia.
  - intros Hle. assert (j = 0%nat) as -> by lia. subst e. simpl.
    rewrite app_nil_r, length_insert. apply Hboot. lia.
Qed.

Lemma Inv_init : Inv 0 [mainCtx 0] (init pubkey0 coords0).
Proof.
  split; simpl.
  - constructor; [|constructor]. by split.
  - eexists. by split.
  - by intros i g [-> _]%list_lookup_singleton_Some.
  - split; simpl.
    + by intros [].
    + intros i1 i2 c1 c2 [_ <-]%list_lookup_singleton_Some _ Hw. destruct Hw.
    + intros i1 c1 [_ <-]%list_lookup_singleton_Some Hw. destruct Hw.
    + by intros i1 c1 key a [_ <-]%list_lookup_singleton_Some.
    + intros pubkey. unfold dhtLookup; simpl. rewrite lookup_empty; simpl.
      by rewrite attemptZero_found.
  - lia.
  - lia.
  - by intros ?%elem_of_nil.
  - by intros ?%elem_of_nil.
  - done.
Qed.

(** What one step of a run does, in terms of the invariant. *)
Lemma Inv_step (j : nat) (cs : list ctx) (s s' : state) (i : nat) (inp : input) :
  Inv j cs s → step s i inp = Some s' →
  ∃ g c e j' cs',
    goroutines s !! i = Some g ∧ cs !! i = Some c ∧ pre e c ∧
    shared s' = perform e (shared s) ∧
    history s' = history s ++ [(i, e)] ∧
    match running g with
    | None => i = 0%nat ∧ e = mainEffect j ∧ (j < 6)%nat
    | Some t => own c = taskPhase t ∧ workerPre e c
    end ∧
    Inv j' cs' s'.
Proof.
  intros HI Hstep.
  destruct (step_inv _ _ _ _ Hstep) as (g & k & e & Hg & Hnext & Hen & ->).
  destruct (Forall2_lookup_r _ _ _ _ _ (inv_typed _ _ _ HI) Hg)
    as (c & Hc & Hcg).
  unfold typed in Hcg.
  destruct (running g) as [t|] eqn:Hrun.
  - destruct (Inv_step_worker _ _ _ _ _ _ _ _ _ HI Hg Hrun Hnext Hen)
      as (c' & Hc' & Hw & Hpre & HI').
    assert (c' = c) as -> by congruence.
    exists g, c, e, j, (<[i := ctxAfter (shared s) e c]> cs ++ kids e).
    rewrite Hrun in HI' |- *. split_and!; try done. apply Hcg.
  - assert (i = 0%nat) as -> by (by eapply inv_main_only).
    destruct Hcg as [Hcode ->].
    destruct (Inv_step_main _ _ _ _ _ _ _ HI Hg Hrun Hnext Hen) as [He HI'].
    pose proof Hnext as Hnext'. rewrite Hcode in Hnext'.
    destruct (main_next _ _ _ _ _ Hnext') as (Hj & _ & _ & Hpre & _).
    exists g, (mainCtx j), e, (S j),
      (<[0%nat := mainCtx (S j)]> cs ++ kids e).
    rewrite Hrun in HI' |- *. split_and!; done.
Qed.

Lemma reachable_Inv (s : state) :
  reachable pubkey0 coords0 s → ∃ j cs, Inv j cs s.
Proof.
  induction 1 as [|s i inp s' _ (j & cs & HI) Hstep].
  - exists 0%nat, [mainCtx 0]. apply Inv_init.
  - destruct (Inv_step _ _ _ _ _ _ HI Hstep)
      as (_ & _ & _ & j' & cs' & _ & _ & _ & _ & _ & _ & HI').
    eauto.
Qed.

(** *** Live tasks and counters *)





Lemma sum_list_with_all_zero {A : Type} (f : A → nat) (l : list A) :
  (∀ i x, l !! i = Some x → f x = 0%nat) → sum_list_with f l = 0%nat.
Proof.
  induction l as [|a l IH]; intros Hall; simpl; [done|].
  rewrite (Hall 0%nat a eq_refl), IH; [done|].
  intros i x Hi. by apply (Hall (S i)).
Qed.



End Invariant.

(** ** One call on its own: the retry loop and the record update *)

Section Sequential.
Context {Src : Source}.

Lemma run_retry_fail {A : Type} (orc : oracle)
    (call : (A * option error → prog) → prog) (reply : nat → A * option error)
    (ev : effect) (k : A → option error → prog) (n : node) :
  perform ev n = n →
  (∀ kk c, run orc (call kk) c n = prepend [ev] (run orc (kk (reply c)) (S c) n)) →
  ∀ (fuel m : nat) (res : A) (err : option error),
    (∀ i, (m ≤ i < m + fuel)%nat → (reply i).2 ≠ None) →
    run orc (retryLoop call fuel (Z.of_nat m) res err k) m n =
    prepend (flat_map (attemptEvents orc ev) (seq m fuel))
      (let final := match fuel with O => (res, err) | S f => reply (m + f)%nat end in
       run orc (k final.1 final.2) (m + fuel)%nat n).
Proof.
  intros Hev Hcall fuel.
  induction fuel as [|fuel IH]; intros m res err Hfail.
  - simpl. rewrite Nat.add_0_r. by destruct (run orc (k res err) m n).
  - cbn [retryLoop run]. cbn [perform]. rewrite Hcall.
    destruct (reply m) as [res' err'] eqn:Hm.
    assert (err' ≠ None) as Herr.
    { specialize (Hfail m ltac:(lia)). by rewrite Hm in Hfail. }
    destruct err' as [e|]; [|done]. cbn [fst snd].
    replace (Z.of_nat m + 1) with (Z.of_nat (S m)) by lia.
    rewrite IH by (intros i Hi; apply Hfail; lia).
    assert (match fuel with
            | O => (res', Some e)
            | S f => reply (S m + f)%nat
            end = reply (m + fuel)%nat) as ->.
    { destruct fuel as [|f]; [by rewrite Nat.add_0_r|]. f_equal. lia. }
    replace (S m + fuel)%nat with (m + S fuel)%nat by lia.
    unfold prepend; simpl. done.
Qed.

Lemma run_retry_success {A : Type} (orc : oracle)
    (call : (A * option error → prog) → prog) (reply : nat → A * option error)
    (ev : effect) (k : A → option error → prog) (n : node) :
  perform ev n = n →
  (∀ kk c, run orc (call kk) c n = prepend [ev] (run orc (kk (reply c)) (S c) n)) →
  ∀ (i fuel m : nat) (res : A) (err : option error),
    (i < fuel)%nat →
    (∀ i', (m ≤ i' < m + i)%nat → (reply i').2 ≠ None) →
    (reply (m + i)%nat).2 = None →
    run orc (retryLoop call fuel (Z.of_nat m) res err k) m n =
    prepend (flat_map (attemptEvents orc ev) (seq m (S i)))
      (run orc (k (reply (m + i)%nat).1 None) (S (m + i)) n).
Proof.
  intros Hev Hcall i.
  induction i as [|i IH]; intros fuel m res err Hlt Hfail Hok;
    (destruct fuel as [|fuel]; [lia|]);
    cbn [retryLoop run]; cbn [perform]; rewrite Hcall.
  - rewrite Nat.add_0_r in *. rewrite Hok.
    unfold prepend; simpl. done.
  - destruct (reply m) as [res' err'] eqn:Hm.
    assert (err' ≠ None) as Herr.
    { specialize (Hfail m ltac:(lia)). by rewrite Hm in Hfail. }
    destruct err' as [e|]; [|done]. cbn [fst snd].
    replace (Z.of_nat m + 1) with (Z.of_nat (S m)) by lia.
    replace (m + S i)%nat with (S m + i)%nat in * by lia.
    rewrite (IH fuel (S m)); [|lia|intros i' Hi'; apply Hfail; lia|done].
    unfold prepend; simpl. done.
Qed.

(** [run] is [exec1] repeated on one goroutine with the answers of the
    oracle, as long as the goroutine is not held up. *)
Lemma run_exec1 (orc : oracle) (p k : prog) (calls : nat) (n n' : node)
    (e : effect) :
  exec1 n p (answer orc calls p) = Some (n', k, e) →
  run orc p calls n = prepend [e] (run orc k (callsAfter calls p) n').
Proof.
  unfold exec1. intros Hex.
  destruct (next n p (answer orc calls p)) as [[k0 e0]|] eqn:Hnext;
    simpl in Hex; [|discriminate].
  destruct (enabled n e0) eqn:Hen; [|discriminate].
  injection Hex as <- <- <-.
  destruct p; simpl in Hnext; try discriminate;
    try (injection Hnext as <- <-; reflexivity).
  - case_bool_decide; [|discriminate]. injection Hnext as <- <-. reflexivity.
  - injection Hnext as <- <-. simpl. by destruct (dhtPingOut orc calls).
  - injection Hnext as <- <-. simpl. by destruct (getNodeInfoOut orc calls).
Qed.


Lemma run_GetNodeInfo (orc : oracle) (pubkey : BoxPubKey) (coords : list N)
    (n : node) (kk : NodeInfoPayload * option error → prog) (c : nat) :
  run orc (CoreGetNodeInfo pubkey coords kk) c n =
  prepend [EvGetNodeInfo pubkey coords]
    (run orc (kk (getNodeInfoOut orc c)) (S c) n).
Proof. reflexivity. Qed.

(** The operations of the fan-out loop. *)
Definition fanOutEvents (infos : list DHTEntry) : list effect :=
  flat_map (λ info, [EvAdd Dht;
                     EvGo (GoDhtPing (PublicKey info) (EntryCoords info))])
           infos.

Lemma run_fanOut (orc : oracle) (infos : list DHTEntry) (calls : nat) (n : node) :
  let r := run orc (fanOut infos (Unlock Dht (WgDone Dht Return))) calls n in
  r.2 = fanOutEvents infos ++ [EvUnlock Dht; EvDone Dht] ∧
  dhtVisited r.1 = dhtVisited n ∧ nodeInfoVisited r.1 = nodeInfoVisited n.
Proof.
  revert n. induction infos as [|info rest IH]; intros n; [done|].
  cbn [fanOut run]. cbn [fst snd fanOutEvents flat_map app].
  destruct (IH (perform (EvGo (GoDhtPing (PublicKey info) (EntryCoords info)))
                  (perform (EvAdd Dht) n))) as (Htr & Hd & Hn).
  fold (fanOutEvents rest). split_and!.
  - do 2 f_equal. exact Htr.
  - rewrite Hd. done.
  - rewrite Hn. done.
Qed.

(** [dhtPing] from the record update on, run on its own. *)
Lemma run_dhtPingRecord (orc : oracle) (calls : nat) (n : node)
    (pubkey : BoxPubKey) (coords : list N) (res : DHTRes) (err : option error) :
  let key := dhtKey pubkey in
  let oldInfo := dhtLookup n key in
  let info := newAttempt pubkey coords res (bool_decide (err = None)) in
  let write := attemptFound info || negb (attemptFound oldInfo) in
  let first := negb (attemptFound oldInfo) && attemptFound info in
  let r := run orc (dhtPingRecord pubkey coords res err) calls n in
  r.2 = [EvLock Dht; EvDhtLoad key] ++
        (if write then [EvDhtStore key info] else []) ++
        (if first
         then [EvAdd NodeInfo; EvGo (GoNodeInfo pubkey coords)] ++
              fanOutEvents (Infos res)
         else []) ++
        [EvUnlock Dht; EvDone Dht] ∧
  dhtVisited r.1 =
    (if write then <[key := info]> (dhtVisited n) else dhtVisited n) ∧
  nodeInfoVisited r.1 = nodeInfoVisited n.
Proof.
  intros key oldInfo info write first. unfold dhtPingRecord.
  fold key. fold info. cbn [run fst snd].
  change (dhtLookup (perform (EvLock Dht) n) key) with oldInfo.
  fold write; fold first.
  destruct write eqn:Hw, first eqn:Hf; cbn [run fst snd app].
  - match goal with |- context [run orc (fanOut ?i ?k) ?c ?m] =>
      destruct (run_fanOut orc i c m) as (Htr & Hd & Hn) end.
    rewrite Htr, Hd, Hn. done.
  - done.
  - unfold write, first in *.
    destruct (attemptFound info), (attemptFound oldInfo); discriminate.
  - done.
Qed.

(** [nodeInfo] after its retry loop, run on its own. *)
Lemma run_nodeInfoRecord (orc : oracle) (calls : nat) (n : node)
    (pubkey : BoxPubKey) (res : NodeInfoPayload) (err : option error) :
  let key := hexEncode pubkey in
  let r := run orc (nodeInfoRecord pubkey res err) calls n in
  r.2 = match err with
        | Some _ => [EvDone NodeInfo]
        | None =>
            [EvLock NodeInfo] ++
            match unmarshal res with
            | inl e => [EvPrintln e]
            | inr j => [EvNodeInfoStore key j]
            end ++ [EvUnlock NodeInfo; EvDone NodeInfo]
        end ∧
  dhtVisited r.1 = dhtVisited n ∧
  nodeInfoVisited r.1 =
    match err, unmarshal res with
    | None, inr j => <[key := j]> (nodeInfoVisited n)
    | _, _ => nodeInfoVisited n
    end.
Proof.
  intros key. unfold nodeInfoRecord. fold key.
  destruct err as [e|]; [done|].
  cbn [run fst snd]. destruct (unmarshal res) as [e|j]; done.
Qed.

(** [dhtPing] run on its own when the record is already found. *)
Lemma run_dhtPing_found (orc : oracle) (calls : nat) (n : node)
    (pubkey : BoxPubKey) (coords : list N) :
  attemptFound (dhtLookup n (dhtKey pubkey)) = true →
  let r := run orc (dhtPing pubkey coords) calls n in
  r.2 = [EvRLock Dht; EvDhtLoad (dhtKey pubkey); EvRUnlock Dht; EvDone Dht] ∧
  dhtVisited r.1 = dhtVisited n ∧ nodeInfoVisited r.1 = nodeInfoVisited n ∧
  dhtMutex r.1 = dhtMutex n ∧ nodeInfoMutex r.1 = nodeInfoMutex n ∧
  dhtWaitGroup r.1 = dhtWaitGroup n - 1 ∧
  nodeInfoWaitGroup r.1 = nodeInfoWaitGroup n.
Proof.
  intros Hfound. unfold dhtPing. cbn [run fst snd].
  change (dhtLookup (perform (EvRLock Dht) n) (dhtKey pubkey))
    with (dhtLookup n (dhtKey pubkey)).
  rewrite Hfound. cbn. split_and!; try done. by destruct (dhtMutex n).
Qed.


(** [nodeInfo] run on its own when the map has no entry for the key. *)
Lemma run_nodeInfo_retry (orc : oracle) (calls : nat) (n : node)
    (pubkey : BoxPubKey) (coords : list N) :
  nodeInfoVisited n !! hexEncode pubkey = None →
  run orc (nodeInfo pubkey coords) calls n =
  prepend [EvRLock NodeInfo; EvNodeInfoHas (hexEncode pubkey); EvRUnlock NodeInfo]
    (run orc
       (retryLoop (CoreGetNodeInfo pubkey coords) (Z.to_nat retryCount) 0
          [] None (nodeInfoRecord pubkey))
       calls (perform (EvRUnlock NodeInfo) (perform (EvRLock NodeInfo) n))).
Proof.
  intros Habsent. unfold nodeInfo. cbn [run fst snd].
  change (nodeInfoVisited (perform (EvRLock NodeInfo) n))
    with (nodeInfoVisited n).
  rewrite Habsent, bool_decide_eq_false_2 by (by intros [? ?]).
  cbn [run fst snd]. done.
Qed.

Lemma probes_attempts (orc : oracle) (ev : effect) (m fuel : nat) :
  probes [ev] = 1%nat →
  probes (flat_map (attemptEvents orc ev) (seq m fuel)) = fuel.
Proof.
  intros Hev. revert m. induction fuel as [|fuel IH]; intros m; [done|].
  cbn [seq flat_map]. unfold probes in *. rewrite sum_list_with_app.
  rewrite IH. simpl in *. lia.
Qed.


Lemma dhtStores_fanOutEvents (infos : list DHTEntry) :
  dhtStores (fanOutEvents infos) = [].
Proof. induction infos as [|info rest IH]; [done|]. exact IH. Qed.

Lemma started_fanOutEvents (infos : list DHTEntry) :
  started (fanOutEvents infos) =
  map (λ info, GoDhtPing (PublicKey info) (EntryCoords info)) infos.
Proof.
  induction infos as [|info rest IH]; [done|].
  cbn [fanOutEvents flat_map app map]. unfold started in *.
  cbn [omap list_omap]. f_equal. exact IH.
Qed.

(** What the record update writes. *)
Lemma dhtPingRecord_stores (orc : oracle) (calls : nat) (n : node)
    (pubkey : BoxPubKey) (coords : list N) (res : DHTRes) (err : option error) :
  let key := dhtKey pubkey in
  let oldInfo := dhtLookup n key in
  let info := newAttempt pubkey coords res (bool_decide (err = None)) in
  let overwrite := bool_decide (err = None) || negb (attemptFound oldInfo) in
  let r := run orc (dhtPingRecord pubkey coords res err) calls n in
  dhtStores r.2 = (if overwrite then [(key, info)] else []) ∧
  dhtVisited r.1 =
    (if overwrite then <[key := info]> (dhtVisited n) else dhtVisited n).
Proof.
  intros key oldInfo info overwrite r.
  destruct (run_dhtPingRecord orc calls n pubkey coords res err)
    as (Htr & Hd & _).
  fold key oldInfo info r in Htr, Hd.
  assert (attemptFound info = bool_decide (err = None)) as Hinfo
    by apply newAttempt_found.
  rewrite Hinfo in Htr, Hd. fold overwrite in Htr, Hd.
  split; [|done]. rewrite Htr. unfold dhtStores.
  rewrite !omap_app. fold (dhtStores (fanOutEvents (Infos res))).
  destruct overwrite, (negb (attemptFound oldInfo) && _);
    cbn [omap list_omap app]; rewrite ?omap_app;
    fold (dhtStores (fanOutEvents (Infos res)));
    by rewrite ?dhtStores_fanOutEvents.
Qed.

(** Whatever the collaborator answers, [nodeInfo] leaves [dhtVisited] as it
    is. *)
Lemma run_nodeInfo_loop_dht (orc : oracle) (pubkey : BoxPubKey) (coords : list N)
    (fuel : nat) (idx : Z) (res : NodeInfoPayload) (err : option error)
    (calls : nat) (n : node) :
  let r := run orc (retryLoop (CoreGetNodeInfo pubkey coords) fuel idx res err
                      (nodeInfoRecord pubkey)) calls n in
  dhtVisited r.1 = dhtVisited n ∧ dhtStores r.2 = [].
Proof.
  revert idx res err calls.
  induction fuel as [|fuel IH]; intros idx res err calls.
  - cbn [retryLoop].
    destruct (run_nodeInfoRecord orc calls n pubkey res err) as (Htr & Hd & _).
    split; [done|]. rewrite Htr.
    destruct err; [done|]. by destruct (unmarshal res).
  - cbn [retryLoop run fst snd]. cbn [perform].
    destruct (getNodeInfoOut orc calls) as [res' [e|]]; cbn [fst snd].
    + apply IH.
    + destruct (run_nodeInfoRecord orc (S calls) n pubkey res' None)
        as (Htr & Hd & _).
      split; [done|]. rewrite Htr. by destruct (unmarshal res').
Qed.

Lemma run_nodeInfo_dht (orc : oracle) (pubkey : BoxPubKey) (coords : list N)
    (calls : nat) (n : node) :
  let r := run orc (nodeInfo pubkey coords) calls n in
  dhtVisited r.1 = dhtVisited n ∧ dhtStores r.2 = [].
Proof.
  unfold nodeInfo. cbn [run fst snd].
  destruct (bool_decide _); cbn [run fst snd]; [done|].
  apply (run_nodeInfo_loop_dht orc pubkey coords (Z.to_nat retryCount) 0 [] None
           calls (perform (EvRUnlock NodeInfo) (perform (EvRLock NodeInfo) n))).
Qed.

(** What the record update starts. *)
Lemma dhtPingRecord_started (orc : oracle) (calls : nat) (n : node)
    (pubkey : BoxPubKey) (coords : list N) (res : DHTRes) (err : option error) :
  let first :=
    negb (attemptFound (dhtLookup n (dhtKey pubkey))) &&
    bool_decide (err = None) in
  started (run orc (dhtPingRecord pubkey coords res err) calls n).2 =
  if first
  then GoNodeInfo pubkey coords ::
       map (λ info, GoDhtPing (PublicKey info) (EntryCoords info)) (Infos res)
  else [].
Proof.
  intros first.
  destruct (run_dhtPingRecord orc calls n pubkey coords res err)
    as (Htr & _ & _).
  rewrite Htr, newAttempt_found. fold first. unfold started.
  rewrite !omap_app. fold (started (fanOutEvents (Infos res))).
  set (write := bool_decide (err = None) || _).
  destruct first.
  - rewrite omap_app. fold (started (fanOutEvents (Infos res))).
    rewrite started_fanOutEvents.
    destruct write; cbn [omap list_omap app]; by rewrite app_nil_r.
  - by destruct write.
Qed.

(** [nodeInfo] starts nothing. *)
Lemma run_nodeInfo_loop_started (orc : oracle) (pubkey : BoxPubKey)
    (coords : list N) (fuel : nat) (idx : Z) (res : NodeInfoPayload)
    (err : option error) (calls : nat) (n : node) :
  started (run orc (retryLoop (CoreGetNodeInfo pubkey coords) fuel idx res err
                      (nodeInfoRecord pubkey)) calls n).2 = [].
Proof.
  revert idx res err calls.
  induction fuel as [|fuel IH]; intros idx res err calls.
  - cbn [retryLoop].
    destruct (run_nodeInfoRecord orc calls n pubkey res err) as (Htr & _ & _).
    rewrite Htr. destruct err; [done|]. by destruct (unmarshal res).
  - cbn [retryLoop run fst snd]. cbn [perform].
    destruct (getNodeInfoOut orc calls) as [res' [e|]]; cbn [fst snd].
    + apply IH.
    + destruct (run_nodeInfoRecord orc (S calls) n pubkey res' None)
        as (Htr & _ & _).
      unfold started. cbn [omap list_omap]. fold (started
        (run orc (nodeInfoRecord pubkey res' None) (S calls) n).2).
      rewrite Htr. by destruct (unmarshal res').
Qed.

Lemma run_nodeInfo_started (orc : oracle) (pubkey : BoxPubKey) (coords : list N)
    (calls : nat) (n : node) :
  started (run orc (nodeInfo pubkey coords) calls n).2 = [].
Proof.
  unfold nodeInfo. cbn [run fst snd].
  destruct (bool_decide _); cbn [run fst snd]; [done|].
  unfold started. cbn [omap list_omap].
  apply (run_nodeInfo_loop_started orc pubkey coords (Z.to_nat retryCount) 0
           [] None calls
           (perform (EvRUnlock NodeInfo) (perform (EvRLock NodeInfo) n))).
Qed.

Lemma omap_attempts {B : Type} (f : effect → option B) (orc : oracle)
    (ev : effect) (m fuel : nat) :
  (∀ r, f (EvRand r) = None) → (∀ d, f (EvSleep d) = None) → f ev = None →
  omap f (flat_map (attemptEvents orc ev) (seq m fuel)) = [].
Proof.
  intros Hr Hs Hev. revert m. induction fuel as [|fuel IH]; intros m; [done|].
  cbn [seq flat_map]. rewrite omap_app, IH. unfold attemptEvents.
  cbn [omap list_omap]. by rewrite Hr, Hs, Hev.
Qed.

(** [nodeInfo] run on its own with the key absent, when the loop hands
    [(res, err)] on after [m] attempts. *)
Lemma run_nodeInfo_outcome (orc : oracle) (n : node) (pubkey : BoxPubKey)
    (coords : list N) (m : nat) (res : NodeInfoPayload) (err : option error) :
  let n1 := perform (EvRUnlock NodeInfo) (perform (EvRLock NodeInfo) n) in
  run orc
    (retryLoop (CoreGetNodeInfo pubkey coords) (Z.to_nat retryCount) 0 [] None
       (nodeInfoRecord pubkey)) 0 n1 =
  prepend (flat_map (attemptEvents orc (EvGetNodeInfo pubkey coords)) (seq 0 m))
    (run orc (nodeInfoRecord pubkey res err) m n1) →
  nodeInfoVisited n !! hexEncode pubkey = None →
  let r := run orc (nodeInfo pubkey coords) 0 n in
  probes r.2 = m ∧
  nodeInfoStores r.2 =
    match err, unmarshal res with
    | None, inr j => [(hexEncode pubkey, j)]
    | _, _ => []
    end ∧
  printed r.2 =
    match err, unmarshal res with
    | None, inl e => [e]
    | _, _ => []
    end ∧
  nodeInfoVisited r.1 =
    match err, unmarshal res with
    | None, inr j => <[hexEncode pubkey := j]> (nodeInfoVisited n)
    | _, _ => nodeInfoVisited n
    end.
Proof.
  intros n1 Hloop Habsent r. subst r.
  rewrite run_nodeInfo_retry by done. fold n1. rewrite Hloop.
  destruct (run_nodeInfoRecord orc m n1 pubkey res err) as (Htr & _ & Hn).
  cbn [prepend fst snd]. rewrite Htr, Hn. split_and!.
  - assert (probes (flat_map (attemptEvents orc (EvGetNodeInfo pubkey coords))
                      (seq 0 m)) = m) as Hp by (by apply probes_attempts).
    unfold probes in *.
    destruct err; [|destruct (unmarshal res)];
      rewrite !sum_list_with_app, Hp; simpl; lia.
  - unfold nodeInfoStores.
    destruct err; [|destruct (unmarshal res)];
      rewrite !omap_app, omap_attempts by done; done.
  - unfold printed.
    destruct err; [|destruct (unmarshal res)];
      rewrite !omap_app, omap_attempts by done; done.
  - done.
Qed.

End Sequential.

(** ** Runs *)

Section Runs.
Context {Src : Source}.
Context (pubkey0 : BoxPubKey) (coords0 : list N).

Lemma steps_reachable (s s' : state) (sched : list (nat * input)) :
  reachable pubkey0 coords0 s → steps s sched = Some s' →
  reachable pubkey0 coords0 s'.
Proof.
  revert s. induction sched as [|[i inp] sched IH]; intros s Hs Hrun; simpl in *.
  - by injection Hrun as <-.
  - destruct (step s i inp) as [s1|] eqn:Hstep; [|discriminate].
    eapply IH; [|exact Hrun]. by eapply reachable_step.
Qed.

Lemma step_sticky (s s' : state) (i : nat) (inp : input) (key : DhtKey) :
  reachable pubkey0 coords0 s → step s i inp = Some s' →
  attemptFound (dhtLookup (shared s) key) = true →
  attemptFound (dhtLookup (shared s') key) = true.
Proof.
  intros (j & cs & HI)%reachable_Inv Hstep Hfound.
  destruct (Inv_step _ _ _ _ _ _ _ _ HI Hstep)
    as (g & c & e & j' & cs' & Hg & Hc & Hpre & -> & _).
  eapply sticky_step; [done| |done].
  intros key' a. by eapply (inv_known _ _ _ (inv_ghost _ _ _ _ _ HI)).
Qed.

Lemma steps_sticky (s s' : state) (sched : list (nat * input)) (key : DhtKey) :
  reachable pubkey0 coords0 s → steps s sched = Some s' →
  attemptFound (dhtLookup (shared s) key) = true →
  attemptFound (dhtLookup (shared s') key) = true.
Proof.
  revert s. induction sched as [|[i inp] sched IH]; intros s Hs Hrun Hf;
    simpl in *.
  - by injection Hrun as <-.
  - destruct (step s i inp) as [s1|] eqn:Hstep; [|discriminate].
    eapply (IH s1); [by eapply reachable_step|done|].
    by eapply step_sticky.
Qed.

(** A [dhtPing] for a record that is found goes down the early return,
    whatever the other goroutines do in between. *)
Lemma dedup_step (s s' : state) (i i' : nat) (inp : input) (g : goroutine)
    (pubkey : BoxPubKey) (coords : list N) (m : nat) (base : list effect) :
  reachable pubkey0 coords0 s →
  attemptFound (dhtLookup (shared s) (dhtKey pubkey)) = true →
  goroutines s !! i = Some g → code g = dedupFrom pubkey coords m →
  ownEffects i (history s) = base ++ take m (dedupTrace pubkey) →
  step s i' inp = Some s' →
  ∃ m' g', goroutines s' !! i = Some g' ∧
           code g' = dedupFrom pubkey coords m' ∧
           ownEffects i (history s') = base ++ take m' (dedupTrace pubkey).
Proof.
  intros Hs Hfound Hg Hcode Hown Hstep.
  destruct (step_inv _ _ _ _ Hstep) as (g1 & k & e & Hg1 & Hnext & Hen & ->).
  cbn [goroutines history]. unfold ownEffects in *. rewrite omap_app.
  cbn [omap list_omap fst snd].
  destruct (decide (i' = i)) as [->|Hne].
  - assert (g1 = g) as -> by congruence. rewrite Hcode in Hnext.
    exists (S m), {| running := running g; code := k |}.
    rewrite lookup_app_l
      by (rewrite length_insert; by eapply lookup_lt_Some).
    rewrite list_lookup_insert_eq by (by eapply lookup_lt_Some).
    split; [done|]. rewrite Hown, <- app_assoc.
    destruct m as [|[|[|[|m]]]]; cbn in Hnext; try discriminate.
    + injection Hnext as <- <-. done.
    + injection Hnext as <- <-. rewrite Hfound. done.
    + injection Hnext as <- <-. done.
    + injection Hnext as <- <-. done.
  - exists m, g.
    rewrite lookup_app_l
      by (rewrite length_insert; by eapply lookup_lt_Some).
    rewrite list_lookup_insert_ne by done.
    split; [done|]. split; [done|]. by rewrite app_nil_r.
Qed.

Lemma dedup_steps (sched : list (nat * input)) (s s' : state) (i : nat)
    (g : goroutine) (pubkey : BoxPubKey) (coords : list N) (m : nat)
    (base : list effect) :
  reachable pubkey0 coords0 s →
  attemptFound (dhtLookup (shared s) (dhtKey pubkey)) = true →
  goroutines s !! i = Some g → code g = dedupFrom pubkey coords m →
  ownEffects i (history s) = base ++ take m (dedupTrace pubkey) →
  steps s sched = Some s' →
  ∃ m', ownEffects i (history s') = base ++ take m' (dedupTrace pubkey).
Proof.
  revert s g m.
  induction sched as [|[i' inp] sched IH]; intros s g m Hs Hf Hg Hc Hown Hrun;
    simpl in Hrun.
  - injection Hrun as <-. eauto.
  - destruct (step s i' inp) as [s1|] eqn:Hstep; [|discriminate].
    destruct (dedup_step _ _ _ _ _ _ _ _ _ _ Hs Hf Hg Hc Hown Hstep)
      as (m1 & g1 & Hg1 & Hc1 & Hown1).
    eapply (IH s1 g1 m1); eauto using reachable_step, step_sticky.
Qed.

(** *** Metadata fetches in a run *)

Lemma owing_none (key : DhtKey) (cs : list ctx) :
  (∀ i c, cs !! i = Some c → ¬ isWriting c) → owing key cs = 0%nat.
Proof.
  intros Hnone. unfold owing. apply sum_list_with_all_zero.
  intros i c Hc. destruct (decide _) as [Ho|]; [|done].
  exfalso. eapply Hnone; [done|]. by eapply owesOf_isWriting.
Qed.

Lemma nodeInfo_once (s : state) (pubkey : BoxPubKey) :
  reachable pubkey0 coords0 s →
  let found := attemptFound (dhtLookup (shared s) (dhtKey pubkey)) in
  (nodeInfoStarted pubkey (history s) ≤ 1)%nat ∧
  (nodeInfoStarted pubkey (history s) = 1%nat → found = true) ∧
  (writer (dhtMutex (shared s)) = false →
   nodeInfoStarted pubkey (history s) = if found then 1%nat else 0%nat).
Proof.
  intros (j & cs & HI)%reachable_Inv found.
  pose proof (inv_owes _ _ _ (inv_ghost _ _ _ _ _ HI) pubkey) as Ho.
  fold found in Ho. split_and!.
  - destruct found; lia.
  - destruct found; [done|lia].
  - intros Hw. rewrite owing_none in Ho; [lia|].
    intros i c Hc Hwr.
    pose proof (inv_writer _ _ _ (inv_ghost _ _ _ _ _ HI) i c Hc Hwr).
    congruence.
Qed.

Lemma nodeInfo_on_transition (s s' : state) (i : nat) (inp : input)
    (pubkey : BoxPubKey) (coords : list N) :
  reachable pubkey0 coords0 s → step s i inp = Some s' →
  history s' = history s ++ [(i, EvGo (GoNodeInfo pubkey coords))] →
  nodeInfoStarted pubkey (history s) = 0%nat ∧
  attemptFound (dhtLookup (shared s) (dhtKey pubkey)) = true ∧
  writer (dhtMutex (shared s)) = true.
Proof.
  intros (j & cs & HI)%reachable_Inv Hstep Hlast.
  destruct (Inv_step _ _ _ _ _ _ _ _ HI Hstep)
    as (g & c & e & j' & cs' & Hg & Hc & Hpre & _ & Hh & _).
  rewrite Hh in Hlast. apply app_inv_head in Hlast. injection Hlast as ->.
  destruct Hpre as (_ & known & Hch).
  assert (owesOf c = Some (dhtKey pubkey)) as Ho
    by (unfold owesOf; by rewrite Hch).
  pose proof (inv_owes _ _ _ (inv_ghost _ _ _ _ _ HI) pubkey) as Hinv.
  pose proof (sum_list_with_lookup_le
    (λ c, if decide (owesOf c = Some (dhtKey pubkey)) then 1%nat else 0%nat)
    cs i c Hc) as Hle.
  cbv beta in Hle. rewrite decide_True in Hle by done. unfold owing in Hinv.
  split_and!.
  - destruct (attemptFound _); lia.
  - destruct (attemptFound _); [done|lia].
  - eapply (inv_writer _ _ _ (inv_ghost _ _ _ _ _ HI) i c Hc).
    unfold isWriting. by rewrite Hch.
Qed.

(** *** The two counters in a run *)








End Runs.

(** ** The sleep before an attempt *)


(** * The specification, statement by statement *)

(** C4.  After both phases have drained, with [A] the size of the
    discovery map, [S] the number of its entries with found set and [I]
    the size of the metadata map: in the later file the results document
    holds attempted [A], successful [S], failed [A - S],
    metadata-successful [I] and metadata-failed [S - I]; in [crawler.go]
    the document has two counts only, [NodesSuccessful], which is the
    metadata-successful count [I], and [NodesFailed], which is the
    metadata-failed count [S - I], and the discovery counts [A], [S] and
    [A - S] are printed on the console and stored nowhere.  The sizes are
    those of Go maps, hence below 2^63. *)
Theorem C4_aggregation_counts :
  (∀ (J : Type) (filename : string) (c : clock) (w : writeOutcome)
     (dhtVisited : gmap string Part000.attempt) (nodeInfoVisited : gmap string J),
     Z.of_nat (size dhtVisited) < 2 ^ 63 →
     Z.of_nat (size nodeInfoVisited) < 2 ^ 63 →
     let res := (Part000Main.finish filename c w dhtVisited nodeInfoVisited).1 in
     let m := Part000Main.meta res in
     let A := Z.of_nat (size dhtVisited) in
     let S := Z.of_nat (size (foundEntries Part000.Found dhtVisited)) in
     let I := Z.of_nat (size nodeInfoVisited) in
     Part000Main.NodesAttempted m = A ∧
     Part000Main.NodesSuccessful m = S ∧
     Part000Main.NodesFailed m = A - S ∧
     Part000Main.NodeInfoSuccessful m = I ∧
     Part000Main.NodeInfoFailed m = S - I ∧
     Part000Main.Topology res = dhtVisited ∧
     Part000Main.NodeInfo res = nodeInfoVisited) ∧
  (∀ (J : Type) (c : clock) (w : writeOutcome)
     (dhtVisited : gmap BoxPubKey CrawlerGo.attempt) (nodeInfo : gmap string J),
     Z.of_nat (size dhtVisited) < 2 ^ 63 →
     Z.of_nat (size nodeInfo) < 2 ^ 63 →
     let out := CrawlerGoMain.finish c w dhtVisited nodeInfo in
     let m := CrawlerGoMain.meta out.1 in
     let A := Z.of_nat (size dhtVisited) in
     let S := Z.of_nat (size (foundEntries CrawlerGo.found dhtVisited)) in
     let I := Z.of_nat (size nodeInfo) in
     CrawlerGoMain.NodesSuccessful m = I ∧
     CrawlerGoMain.NodesFailed m = S - I ∧
     CrawlerGoMain.NodeInfo out.1 = nodeInfo ∧
     ∃ before,
       out.2 = before ++
         [ [PInt A; PStr "nodes were processed"];
           [PInt S; PStr "nodes were found"];
           [PInt (A - S); PStr "nodes were not found"];
           [];
           [PInt I; PStr "nodes responded with nodeinfo"];
           [PInt (S - I); PStr "nodes did not respond with nodeinfo"] ]).
Proof.
  split.
  - intros J filename c w dht ni Hd Hn. simpl.
    rewrite !countFound_size by done.
    pose proof (foundEntries_size Part000.Found dht).
    rewrite !wrap64_small by lia. done.
  - intros J c w dht ni Hd Hn. simpl.
    rewrite !countFound_size by done.
    pose proof (foundEntries_size CrawlerGo.found dht).
    rewrite !wrap64_small by lia. split_and!; try done.
    eexists ([ []; [PStr "The crawl took"; PDuration (sincePrinted c)] ] ++
             match w with
             | WriteFailed e => [ [PStr "Failed to write nodeinfo.json:"; PErr e] ]
             | _ => []
             end).
    by rewrite <- !app_assoc.
Qed.



(** C1.  The record update of [dhtPing] writes the new record under the
    key exactly when the new probe succeeded or the stored record had not
    succeeded; and in every run, a record that is found stays found
    whatever is processed afterwards. *)
Theorem C1_write_if_better_sticky :
  (∀ (Src : Source) (orc : oracle) (calls : nat) (n : node)
     (pubkey : BoxPubKey) (coords : list N) (res : DHTRes) (err : option error),
     let key := dhtKey pubkey in
     let oldInfo := dhtLookup n key in
     let info := newAttempt pubkey coords res (bool_decide (err = None)) in
     let overwrite := bool_decide (err = None) || negb (attemptFound oldInfo) in
     let r := run orc (dhtPingRecord pubkey coords res err) calls n in
     dhtStores r.2 = (if overwrite then [(key, info)] else []) ∧
     dhtVisited r.1 =
       (if overwrite then <[key := info]> (dhtVisited n) else dhtVisited n)) ∧
  (∀ (Src : Source) (pubkey0 : BoxPubKey) (coords0 : list N)
     (s s' : state) (sched : list (nat * input)) (key : DhtKey),
     reachable pubkey0 coords0 s → steps s sched = Some s' →
     attemptFound (dhtLookup (shared s) key) = true →
     attemptFound (dhtLookup (shared s') key) = true).
Proof.
  split.
  - intros Src orc calls n pubkey coords res err. apply dhtPingRecord_stores.
  - intros Src pubkey0 coords0 s s' sched key. apply steps_sticky.
Qed.



(** C8.  A metadata fetch never touches the discovery map.  When all its
    requests fail, [nodeInfo] returns without a word: nothing is stored,
    nothing is printed, the identity stays absent from the metadata map.
    When a request succeeds with a payload that does not parse, the error is
    printed and nothing is stored, and the identity stays absent as well;
    the same holds when the retry count allows no request at all and the
    empty payload does not parse. *)
Theorem C8_failed_metadata_fetch (Src : Source) (orc : oracle)
    (pubkey : BoxPubKey) (coords : list N) (n : node) :
  let key := hexEncode pubkey in
  let fuel := Z.to_nat retryCount in
  let r := run orc (nodeInfo pubkey coords) 0 n in
  (dhtVisited r.1 = dhtVisited n ∧ dhtStores r.2 = []) ∧
  (nodeInfoVisited n !! key = None → (1 ≤ fuel)%nat →
   (∀ i, (i < fuel)%nat → (getNodeInfoOut orc i).2 ≠ None) →
   probes r.2 = fuel ∧ nodeInfoStores r.2 = [] ∧ printed r.2 = [] ∧
   nodeInfoVisited r.1 = nodeInfoVisited n ∧
   nodeInfoVisited r.1 !! key = None) ∧
  (∀ (i : nat) (e : error),
     nodeInfoVisited n !! key = None → (i < fuel)%nat →
     (∀ i', (i' < i)%nat → (getNodeInfoOut orc i').2 ≠ None) →
     (getNodeInfoOut orc i).2 = None →
     unmarshal (getNodeInfoOut orc i).1 = inl e →
     probes r.2 = S i ∧ nodeInfoStores r.2 = [] ∧ printed r.2 = [e] ∧
     nodeInfoVisited r.1 = nodeInfoVisited n ∧
     nodeInfoVisited r.1 !! key = None) ∧
  (∀ (e : error),
     nodeInfoVisited n !! key = None → fuel = 0%nat → unmarshal [] = inl e →
     probes r.2 = 0%nat ∧ nodeInfoStores r.2 = [] ∧ printed r.2 = [e] ∧
     nodeInfoVisited r.1 = nodeInfoVisited n ∧
     nodeInfoVisited r.1 !! key = None).
Proof.
  intros key fuel r. unfold fuel in *. clear fuel.
  set (n1 := perform (EvRUnlock NodeInfo) (perform (EvRLock NodeInfo) n)).
  split_and!.
  - apply run_nodeInfo_dht.
  - apply run_nodeInfo_dht.
  - intros Habsent Hfuel Hfail.
    pose proof (run_retry_fail orc _ (getNodeInfoOut orc)
                  (EvGetNodeInfo pubkey coords) (nodeInfoRecord pubkey) n1
                  eq_refl (λ kk c, run_GetNodeInfo orc pubkey coords n1 kk c)
                  (Z.to_nat retryCount) 0%nat [] None) as Hrun.
    change (Z.of_nat 0) with 0 in Hrun.
    specialize (Hrun ltac:(intros i Hi; apply Hfail; lia)).
    destruct (Z.to_nat retryCount) as [|f] eqn:Hf; [lia|].
    cbn [Nat.add] in Hrun.
    destruct (getNodeInfoOut orc f) as [res err] eqn:Hlast.
    assert (err ≠ None) as Herr.
    { specialize (Hfail f ltac:(lia)). by rewrite Hlast in Hfail. }
    destruct (run_nodeInfo_outcome orc n pubkey coords (S f) res err)
      as (Hp & Hs & Hpr & Hn); [rewrite Hf; exact Hrun | done |].
    fold r in Hp, Hs, Hpr, Hn.
    destruct err; [|done]. rewrite Hn. done.
  - intros i e Habsent Hi Hfail Hok Hbad.
    pose proof (run_retry_success orc _ (getNodeInfoOut orc)
                  (EvGetNodeInfo pubkey coords) (nodeInfoRecord pubkey) n1
                  eq_refl (λ kk c, run_GetNodeInfo orc pubkey coords n1 kk c)
                  i (Z.to_nat retryCount) 0%nat [] None Hi) as Hrun.
    change (Z.of_nat 0) with 0 in Hrun. cbn [Nat.add] in Hrun.
    specialize (Hrun ltac:(intros i' Hi'; apply Hfail; lia) Hok).
    destruct (run_nodeInfo_outcome orc n pubkey coords (S i)
                (getNodeInfoOut orc i).1 None)
      as (Hp & Hs & Hpr & Hn); [done|done|].
    fold r in Hp, Hs, Hpr, Hn.
    rewrite Hbad in *. rewrite Hn. done.
  - intros e Habsent Hfuel Hbad.
    destruct (run_nodeInfo_outcome orc n pubkey coords 0%nat [] None)
      as (Hp & Hs & Hpr & Hn); [|done|].
    { rewrite Hfuel. cbn [retryLoop seq flat_map]. unfold prepend.
      by destruct (run orc _ _ _). }
    fold r in Hp, Hs, Hpr, Hn.
    rewrite Hbad in *. rewrite Hn. done.
Qed.

(** C6.  A [dhtPing] for an identity whose record is already found returns
    at the first check: it takes and releases the read lock, reads the
    record and calls [Done]; it makes no probe, leaves both maps and both
    mutexes as they were (the stored coordinates are not refreshed,
    whatever coordinates the call carries) and starts no task.  In a run,
    such a call performs a prefix of these four operations and nothing
    else, whatever the other goroutines do meanwhile. *)
Theorem C6_dedup_early_return :
  (∀ (Src : Source) (orc : oracle) (calls : nat) (n : node)
     (pubkey : BoxPubKey) (coords : list N),
     attemptFound (dhtLookup n (dhtKey pubkey)) = true →
     let r := run orc (dhtPing pubkey coords) calls n in
     r.2 = dedupTrace pubkey ∧
     probes r.2 = 0%nat ∧ started r.2 = [] ∧
     dhtStores r.2 = [] ∧ nodeInfoStores r.2 = [] ∧
     dhtVisited r.1 = dhtVisited n ∧
     nodeInfoVisited r.1 = nodeInfoVisited n ∧
     dhtLookup r.1 (dhtKey pubkey) = dhtLookup n (dhtKey pubkey) ∧
     dhtWaitGroup r.1 = dhtWaitGroup n - 1) ∧
  (∀ (Src : Source) (pubkey0 : BoxPubKey) (coords0 : list N)
     (s s' : state) (sched : list (nat * input)) (i : nat)
     (pubkey : BoxPubKey) (coords : list N),
     reachable pubkey0 coords0 s →
     goroutines s !! i =
       Some {| running := Some (GoDhtPing pubkey coords);
               code := dhtPing pubkey coords |} →
     attemptFound (dhtLookup (shared s) (dhtKey pubkey)) = true →
     steps s sched = Some s' →
     ∃ m, ownEffects i (history s') =
          ownEffects i (history s) ++ take m (dedupTrace pubkey)).
Proof.
  split.
  - intros Src orc calls n pubkey coords Hfound r.
    destruct (run_dhtPing_found orc calls n pubkey coords Hfound)
      as (Htr & Hd & Hn & _ & _ & Hwg & _).
    fold r in Htr, Hd, Hn, Hwg. rewrite Htr.
    split_and!; try done. unfold dhtLookup. by rewrite Hd.
  - intros Src pubkey0 coords0 s s' sched i pubkey coords Hs Hg Hf Hrun.
    eapply (dedup_steps pubkey0 coords0 sched s s' i _ pubkey coords 0%nat);
      eauto.
    by rewrite app_nil_r.
Qed.

(** C2.  In every run [nodeInfo] is started at most once for an identity;
    when it is started, the record of the identity has just been turned
    from not found to found by the goroutine that starts it, inside the
    same critical section; and whenever [dhtMutex] is not held for writing,
    the identities for which [nodeInfo] was started are exactly those whose
    record is found.  The record update starts [nodeInfo] exactly when
    the stored record had not succeeded and the probe succeeded, and
    [nodeInfo] itself starts nothing. *)
Theorem C2_metadata_fetch_once :
  (∀ (Src : Source) (pubkey0 : BoxPubKey) (coords0 : list N) (s : state)
     (pubkey : BoxPubKey),
     reachable pubkey0 coords0 s →
     let found := attemptFound (dhtLookup (shared s) (dhtKey pubkey)) in
     (nodeInfoStarted pubkey (history s) ≤ 1)%nat ∧
     (nodeInfoStarted pubkey (history s) = 1%nat → found = true) ∧
     (writer (dhtMutex (shared s)) = false →
      nodeInfoStarted pubkey (history s) = if found then 1%nat else 0%nat)) ∧
  (∀ (Src : Source) (pubkey0 : BoxPubKey) (coords0 : list N) (s s' : state)
     (i : nat) (inp : input) (pubkey : BoxPubKey) (coords : list N),
     reachable pubkey0 coords0 s → step s i inp = Some s' →
     history s' = history s ++ [(i, EvGo (GoNodeInfo pubkey coords))] →
     nodeInfoStarted pubkey (history s) = 0%nat ∧
     attemptFound (dhtLookup (shared s) (dhtKey pubkey)) = true ∧
     writer (dhtMutex (shared s)) = true) ∧
  (∀ (Src : Source) (orc : oracle) (calls : nat) (n : node)
     (pubkey : BoxPubKey) (coords : list N) (res : DHTRes) (err : option error),
     let first :=
       negb (attemptFound (dhtLookup n (dhtKey pubkey))) &&
       bool_decide (err = None) in
     let r := run orc (dhtPingRecord pubkey coords res err) calls n in
     (GoNodeInfo pubkey coords ∈ started r.2 ↔ first = true) ∧
     (∀ pk crd, GoNodeInfo pk crd ∈ started r.2 → pk = pubkey ∧ crd = coords) ∧
     (first = true → attemptFound (dhtLookup r.1 (dhtKey pubkey)) = true) ∧
     started (run orc (nodeInfo pubkey coords) calls n).2 = []).
Proof.
  split_and!.
  - intros Src pubkey0 coords0 s pubkey. apply nodeInfo_once.
  - intros Src pubkey0 coords0 s s' i inp pubkey coords.
    apply nodeInfo_on_transition.
  - intros Src orc calls n pubkey coords res err first r.
    pose proof (dhtPingRecord_started orc calls n pubkey coords res err) as Hst.
    fold first r in Hst.
    assert (∀ pk crd,
      GoNodeInfo pk crd ∉
      map (λ info, GoDhtPing (PublicKey info) (EntryCoords info)) (Infos res))
      as Hnot.
    { intros pk crd (info & Heq & _)%list_elem_of_fmap. discriminate. }
    split_and!.
    + rewrite Hst. destruct first; split; try done.
      * intros _. apply list_elem_of_here.
      * by intros ?%elem_of_nil.
    + intros pk crd. rewrite Hst. destruct first; [|by intros ?%elem_of_nil].
      intros [Heq|Hin]%elem_of_cons; [by injection Heq as -> ->|].
      by apply Hnot in Hin.
    + intros Hfirst. apply andb_true_iff in Hfirst as [_ Herr].
      destruct (dhtPingRecord_stores orc calls n pubkey coords res err)
        as [_ Hd].
      fold r in Hd. rewrite Herr in Hd. cbn [orb] in Hd.
      unfold dhtLookup. rewrite Hd, lookup_insert_eq. simpl.
      by rewrite newAttempt_found.
    + apply run_nodeInfo_started.
Qed.


(** * Concrete runs *)

Lemma steps_default {Src : Source} (s : state) (sched : list (nat * input)) :
  (if steps s sched is Some _ then true else false) = true →
  steps s sched = Some (default s (steps s sched)).
Proof. by destruct (steps s sched). Qed.

Lemma reachable_default {Src : Source} (pubkey0 : BoxPubKey) (coords0 : list N)
    (s : state) (sched : list (nat * input)) :
  reachable pubkey0 coords0 s →
  reachable pubkey0 coords0 (default s (steps s sched)).
Proof.
  intros Hs. destruct (steps s sched) as [s'|] eqn:Hrun; [|done].
  by eapply steps_reachable.
Qed.

Module Run.
Import Example.

(** The seed has been recorded and [nodeInfo] started for it. *)
Definition atFound : @state crawler :=
  default (init seed [1%N]) (steps (init seed [1%N]) seedFound).

(** The crawl of the lone seed is over. *)
Definition atDone : @state crawler := default atFound (steps atFound seedDone).

(** The seed answers with a rumour of itself: the second [dhtPing] for the
    seed is goroutine 3, started when the record is already found. *)
Definition selfRumour : list (nat * input) :=
  [(0, NoInput); (0, NoInput);
   (1, NoInput); (1, NoInput); (1, NoInput);
   (1, RandOut 5); (1, NoInput);
   (1, DHTPingOut {| Coords := [3%N];
                     Infos := [{| PublicKey := seed; EntryCoords := [4%N] |}] |}
         None);
   (1, NoInput); (1, NoInput); (1, NoInput); (1, NoInput); (1, NoInput);
   (1, NoInput); (1, NoInput)]%nat.

Definition atRumour : @state crawler :=
  default (init seed [1%N]) (steps (init seed [1%N]) selfRumour).

(** The second [dhtPing] runs to its end while the first one finishes. *)
Definition rumourDone : list (nat * input) :=
  [(1, NoInput); (3, NoInput); (3, NoInput); (1, NoInput);
   (3, NoInput); (3, NoInput)]%nat.

Definition atRumourDone : @state crawler :=
  default atRumour (steps atRumour rumourDone).

(** A node in which the seed is recorded as found, with coordinates 9. *)
Definition visited : @node crawler :=
  perform
    (@EvDhtStore crawler seed
       {| CrawlerGo.coords := [9%N]; CrawlerGo.found := true |})
    newNode.

Definition oneFound : gmap string Part000.attempt :=
  {[ "01"%string :=
       {| Part000.NodeID := "n"; Part000.IPv6Addr := "a";
          Part000.IPv6Subnet := "s"; Part000.Coords := [1%N];
          Part000.Found := true |} ]}.

Definition reply : DHTRes :=
  {| Coords := [2%N];
     Infos := [{| PublicKey := peer; EntryCoords := [1%N; 3%N] |}] |}.

End Run.

(** The run of the lone seed: one record, found; one metadata fetch; both
    counters back at zero. *)
Example lone_seed :
  size (dhtVisited (shared Run.atDone)) = 1%nat ∧
  countFound CrawlerGo.found (dhtVisited (shared Run.atDone)) = 1 ∧
  nodeInfoStarted Example.seed (history Run.atDone) = 1%nat ∧
  size (nodeInfoVisited (shared Run.atDone)) = 1%nat ∧
  dhtWaitGroup (shared Run.atDone) = 0 ∧
  nodeInfoWaitGroup (shared Run.atDone) = 0.
Proof. vm_compute. repeat split. Qed.

(** The record of the seed is written once although it is rumoured again. *)
Example self_rumour :
  nodeInfoStarted Example.seed (history Run.atRumourDone) = 1%nat ∧
  dhtStores (ownEffects 1 (history Run.atRumourDone)) =
    [(Example.seed, {| CrawlerGo.coords := [3%N]; CrawlerGo.found := true |})] ∧
  dhtStores (ownEffects 3 (history Run.atRumourDone)) = [].
Proof. vm_compute. repeat split. Qed.

(** One node found and no metadata: the console reports one node that
    responded with nodeinfo, the document none. *)
Example console_and_document :
  let out := Part000Main.finish "results.json"
               {| sincePrinted := 3; nowUnix := 4; sinceStored := 5 |} Written
               Run.oneFound (∅ : gmap string NodeInfoPayload) in
  nth 8 out.2 [] = [PInt 1; PStr "nodes responded with nodeinfo"] ∧
  Part000Main.NodeInfoSuccessful (Part000Main.meta out.1) = 0.
Proof. vm_compute. split; reflexivity. Qed.

Lemma C1_witness :
  attemptFound (dhtLookup (shared Run.atFound) (dhtKey Example.seed)) = true ∧
  attemptFound (dhtLookup (shared Run.atDone) (dhtKey Example.seed)) = true.
Proof.
  split; [vm_compute; reflexivity|].
  apply (proj2 C1_write_if_better_sticky Example.crawler Example.seed [1%N]
           Run.atFound Run.atDone Example.seedDone).
  - apply reachable_default, reachable_init.
  - apply steps_default. vm_compute. reflexivity.
  - vm_compute. reflexivity.
Defined.

Lemma C2_witness :
  (nodeInfoStarted Example.seed (history Run.atDone) ≤ 1)%nat.
Proof.
  apply (proj1 C2_metadata_fetch_once Example.crawler Example.seed [1%N]
           Run.atDone Example.seed).
  apply reachable_default, reachable_default, reachable_init.
Defined.


Lemma C4_witness :
  Part000Main.NodeInfoFailed
    (Part000Main.meta
       (Part000Main.finish "results.json"
          {| sincePrinted := 3; nowUnix := 4; sinceStored := 5 |} Written
          Run.oneFound (∅ : gmap string NodeInfoPayload)).1) = 1 - 0 ∧
  CrawlerGoMain.NodesFailed
    (CrawlerGoMain.meta
       (CrawlerGoMain.finish
          {| sincePrinted := 3; nowUnix := 4; sinceStored := 5 |} Written
          ({[ Example.seed :=
                {| CrawlerGo.coords := [1%N]; CrawlerGo.found := true |} ]}
             : gmap BoxPubKey CrawlerGo.attempt)
          (∅ : gmap string NodeInfoPayload)).1) = 1 - 0.
Proof.
  split.
  - apply (proj1 C4_aggregation_counts NodeInfoPayload "results.json"
             {| sincePrinted := 3; nowUnix := 4; sinceStored := 5 |} Written
             Run.oneFound ∅).
    + vm_compute. reflexivity.
    + vm_compute. reflexivity.
  - refine (proj1 (proj2
      (proj2 C4_aggregation_counts NodeInfoPayload
         {| sincePrinted := 3; nowUnix := 4; sinceStored := 5 |} Written
         {[ Example.seed :=
              {| CrawlerGo.coords := [1%N]; CrawlerGo.found := true |} ]}
         ∅ _ _))).
    + vm_compute. reflexivity.
    + vm_compute. reflexivity.
Defined.

(** C4 as stated fails on [crawler.go]: with one node attempted and found
    and no metadata, the document's [NodesSuccessful] is 0, not the number
    of found entries, and its [NodesFailed] is 1, not attempted minus
    successful. *)
Lemma C4_counterexample :
  ¬ (∀ (J : Type) (c : clock) (w : writeOutcome)
       (dhtVisited : gmap BoxPubKey CrawlerGo.attempt) (nodeInfo : gmap string J),
       Z.of_nat (size dhtVisited) < 2 ^ 63 →
       Z.of_nat (size nodeInfo) < 2 ^ 63 →
       let m := CrawlerGoMain.meta (CrawlerGoMain.finish c w dhtVisited nodeInfo).1 in
       let A := Z.of_nat (size dhtVisited) in
       let S := Z.of_nat (size (foundEntries CrawlerGo.found dhtVisited)) in
       CrawlerGoMain.NodesSuccessful m = S ∧
       CrawlerGoMain.NodesFailed m = A - S).
Proof.
  intros H.
  destruct (H NodeInfoPayload
              {| sincePrinted := 3; nowUnix := 4; sinceStored := 5 |} Written
              {[ Example.seed :=
                   {| CrawlerGo.coords := [1%N]; CrawlerGo.found := true |} ]}
              ∅)
    as [Hs _].
  - vm_compute. reflexivity.
  - vm_compute. reflexivity.
  - vm_compute in Hs. discriminate.
Qed.


Lemma C6_witness :
  (run (Src := Example.crawler) Example.prompt
     (dhtPing Example.seed [4%N]) 0 Run.visited).2 =
  dedupTrace Example.seed ∧
  ∃ m, ownEffects 3 (history Run.atRumourDone) =
       ownEffects 3 (history Run.atRumour) ++ take m (dedupTrace Example.seed).
Proof.
  split.
  - apply (proj1 C6_dedup_early_return Example.crawler Example.prompt 0%nat
             Run.visited Example.seed [4%N]).
    reflexivity.
  - apply (proj2 C6_dedup_early_return Example.crawler Example.seed [1%N]
             Run.atRumour Run.atRumourDone Run.rumourDone 3%nat
             Example.seed [4%N]).
    + apply reachable_default, reachable_init.
    + reflexivity.
    + vm_compute. reflexivity.
    + apply steps_default. vm_compute. reflexivity.
Defined.



Lemma C8_witness :
  printed (run (Src := Example.crawler) Example.deaf
             (nodeInfo Example.seed [1%N]) 0 newNode).2 = [] ∧
  printed (run (Src := Example.crawler) Example.garbled
             (nodeInfo Example.seed [1%N]) 0 newNode).2 =
    ["unexpected end of JSON input"%string].
Proof.
  split.
  - apply (proj1 (proj2 (C8_failed_metadata_fetch Example.crawler Example.deaf
                           Example.seed [1%N] newNode))).
    + reflexivity.
    + vm_compute. lia.
    + intros i Hi. discriminate.
  - apply (proj1 (proj2 (proj2 (C8_failed_metadata_fetch Example.crawler
                                  Example.garbled Example.seed [1%N] newNode)))
             0%nat "unexpected end of JSON input"%string).
    + reflexivity.
    + vm_compute. lia.
    + intros i' Hi'. lia.
    + reflexivity.
    + reflexivity.
Defined.

